(** * Amanda common-src/alloc.c: memory allocators with error handling

    A shallow embedding of [alloc.c] over a small model of the C heap.
    Every function of the file that allocates becomes a computation in a
    state-and-error monad: the state carries the heap, the outcomes of the
    coming platform allocations, the static list of [debug_caller_loc] and
    the log of initializer calls; a computation returns normally, ends in
    [errordump] (which does not return) or has no defined behaviour.

    Conventions.  [size_t] is 64 bits wide and [int] 32 bits (LP64).  A
    [const char *] that is only read is modelled by the bytes of the string
    it points to (without the terminator), [None] being the null pointer; a
    pointer that the code obtains from [malloc] is the address of a block
    of the heap. *)

From Stdlib Require Import ZArith Lia Strings.Byte String DecimalString.
From stdpp Require Import base gmap list strings.

Local Open Scope Z_scope.

(** ** Machine integers *)

Definition SIZE_T_MOD : Z := 2 ^ 64.
Definition INT_MAX : Z := 2 ^ 31 - 1.

(** Conversion to [size_t], and [size_t] arithmetic with its wrap-around. *)
Definition to_size_t (z : Z) : Z := z mod SIZE_T_MOD.
Definition size_add (a b : Z) : Z := to_size_t (a + b).
Definition size_sub (a b : Z) : Z := to_size_t (a - b).
Definition size_mul (a b : Z) : Z := to_size_t (a * b).

(** The [max] macro of amanda.h. *)
Definition max (a b : Z) : Z := if a <? b then b else a.

(** ** Strings *)

#[global] Instance byte_eq_decision : EqDecision byte := byte_eq_dec.

Definition bs (s : string) : list byte := list_byte_of_string s.

Definition NUL : byte := x00.

Definition strlen (s : list byte) : Z := Z.of_nat (length s).

(** [strrchr s c]: the suffix of [s] that starts at the last [c]. *)
Fixpoint strrchr (s : list byte) (c : byte) : option (list byte) :=
  match s with
  | [] => None
  | x :: s' =>
      match strrchr s' c with
      | Some r => Some r
      | None => if decide (x = c) then Some s else None
      end
  end.

(** [strncmp a b n == 0] on strings without embedded terminator. *)
Definition strncmp_eq (a b : list byte) (n : nat) : bool :=
  bool_decide (take n a = take n b).

(** The conversion [%d] of the printf family. *)
Definition fmt_d (n : Z) : list byte := bs (NilZero.string_of_int (Z.to_int n)).

(** What [snprintf(buf, size, ...)] leaves in [buf] as a string, given the
    full rendering: at most [size - 1] bytes. *)
Definition snprintf (size : Z) (rendered : list byte) : list byte :=
  take (Z.to_nat (size - 1)) rendered.

(** ** The heap *)

(** A cell of a block: not yet written, a byte, or (in the blocks that
    [safe_env] allocates for a [char **]) one pointer slot. *)
Inductive memval : Type :=
  | Undef
  | Char (b : byte)
  | Ptr (p : Z).

Definition SIZEOF_ptr : Z := 8.

(** [struct loc_str { char *str; LIST_ENTRY(loc_str) le; }]: the node lives
    at address [ls_node]; the links [le] are the order of the list [root]. *)
Record loc_str : Type := LocStr { ls_node : Z; str : Z }.

#[global] Instance loc_str_eq_decision : EqDecision loc_str.
Proof. solve_decision. Defined.

Definition SIZEOF_loc_str : Z := 3 * SIZEOF_ptr.

Record state : Type := State {
  heap : gmap Z (list memval);   (* the live blocks, by address; 0 is NULL *)
  fails : list bool;             (* coming calls of malloc: true = returns NULL *)
  root : list loc_str;           (* the static LIST_HEAD of debug_caller_loc *)
  inits : list (Z * Z);          (* calls of init_func so far: (table, byte offset) *)
}.

Definition set_heap (h : gmap Z (list memval)) (st : state) : state :=
  State h (fails st) (root st) (inits st).
Definition set_root (r : list loc_str) (st : state) : state :=
  State (heap st) (fails st) r (inits st).

(** The messages handed to [errordump]. *)
Inductive fatal : Type :=
  | AllocFailed (file : list byte) (line : Z) (size : Z)
      (* "%s@%d: memory allocation failed (%zu bytes requested)" *)
  | StrIsNull
      (* "internal_vstralloc: str is NULL" *)
  | TooManyArgs (file : list byte) (line : Z) (limit : Z).
      (* "%s@%d: more than %d args to vstralloc" *)

Inductive outcome (A : Type) : Type :=
  | Ok (a : A) (st : state)
  | Fatal (e : fatal)
  | Undefined.
Arguments Ok {A} a st.
Arguments Fatal {A} e.
Arguments Undefined {A}.

Definition M (A : Type) : Type := state → outcome A.

Definition ret {A} (a : A) : M A := λ st, Ok a st.

Definition bind {A B} (m : M A) (k : A → M B) : M B :=
  λ st, match m st with
        | Ok a st' => k a st'
        | Fatal e => Fatal e
        | Undefined => Undefined
        end.

Notation "'let*' x ':=' c 'in' k" := (bind c (λ x, k))
  (at level 10, x name, c at level 100, k at level 200).
Notation "'do*' c 'in' k" := (bind c (λ _, k))
  (at level 10, c at level 100, k at level 200).

(** [errordump] reports and terminates the process. *)
Definition errordump {A} (e : fatal) : M A := λ _, Fatal e.

Definition undefined {A} : M A := λ _, Undefined.

Definition gets {A} (f : state → A) : M A := λ st, Ok (f st) st.
Definition modify (f : state → state) : M unit := λ st, Ok tt (f st).

(** *** The platform allocator *)

Definition fresh_addr (h : gmap Z (list memval)) : Z := fresh ({[0]} ∪ dom h).

Definition malloc (n : Z) : M Z :=
  λ st, match fails st with
        | true :: fs => Ok 0 (State (heap st) fs (root st) (inits st))
        | _ =>
            let p := fresh_addr (heap st) in
            Ok p (State (<[p := replicate (Z.to_nat n) Undef]> (heap st))
                        (tail (fails st)) (root st) (inits st))
        end.

(** [malloc] of a [char **] array: one cell per pointer slot. *)
Definition malloc_ptrs (nbytes : Z) : M Z := malloc (nbytes / SIZEOF_ptr).

Definition free (p : Z) : M unit :=
  λ st, if decide (p = 0) then Ok tt st
        else match heap st !! p with
             | Some _ => Ok tt (set_heap (delete p (heap st)) st)
             | None => Undefined
             end.

(** *** Reading and writing blocks *)

Definition load (p off n : Z) : M (list memval) :=
  λ st, match heap st !! p with
        | Some blk =>
            if decide (0 ≤ off ∧ 0 ≤ n ∧ off + n ≤ Z.of_nat (length blk))
            then Ok (take (Z.to_nat n) (drop (Z.to_nat off) blk)) st
            else Undefined
        | None => Undefined
        end.

Definition store (p off : Z) (d : list memval) : M unit :=
  λ st, match heap st !! p with
        | Some blk =>
            if decide (0 ≤ off ∧ off + Z.of_nat (length d) ≤ Z.of_nat (length blk))
            then Ok tt (set_heap
                          (<[p := take (Z.to_nat off) blk ++ d ++
                                  drop (Z.to_nat off + length d) blk]> (heap st)) st)
            else Undefined
        | None => Undefined
        end.

(** [memcpy(dst + doff, src + soff, n)] between blocks. *)
Definition memcpy (dst doff src soff n : Z) : M unit :=
  let* d := load src soff n in store dst doff d.

(** [memcpy(dst + doff, s, n)] from a string (and its terminator). *)
Definition memcpy_str (dst doff : Z) (s : list byte) (n : Z) : M unit :=
  store dst doff (take (Z.to_nat n) (Char <$> (s ++ [NUL]))).

Definition memset (p off : Z) (c : byte) (n : Z) : M unit :=
  store p off (replicate (Z.to_nat n) (Char c)).

Definition strcpy (dst : Z) (s : list byte) : M unit :=
  store dst 0 (Char <$> (s ++ [NUL])).

(** The string that starts a block: the bytes before the first terminator. *)
Fixpoint cstring_of (blk : list memval) : option (list byte) :=
  match blk with
  | Char b :: rest =>
      if decide (b = NUL) then Some [] else (b ::.) <$> cstring_of rest
  | _ => None
  end.

Definition cstring_at (h : gmap Z (list memval)) (p : Z) : option (list byte) :=
  h !! p ≫= cstring_of.

(** [strcmp(s, p) == 0] for a string in memory. *)
Definition strcmp_eq (s : list byte) (p : Z) : M bool :=
  λ st, match cstring_at (heap st) p with
        | Some t => Ok (bool_decide (s = t)) st
        | None => Undefined
        end.

(** ** alloc.c *)

Definition MIN_ALLOC : Z := 64.

(** What [debug_caller_loc] returns: a [const char *] to static storage or
    to a string of the registry. *)
Inductive descr : Type :=
  | Unknown            (* the string literal "??" *)
  | Interned (s : Z).  (* [ls->str] of a node of the list *)

(** Modelled from the spec: [malloc_enter], [malloc_leave] and [malloc_mark]
    are macros of amanda.h, which is not part of the sources at hand.  The
    spec has every entry record the call site in the registry (so the
    argument is evaluated) and gives the bracketing no effect on the
    allocation: the descriptor goes to external diagnostic tooling. *)
Definition malloc_enter (loc : descr) : M unit := ret tt.
Definition malloc_leave (loc : descr) : M unit := ret tt.
Definition malloc_mark (p : Z) : M unit := ret tt.

(** Modelled from the spec: [debug_amfree] is declared in amanda.h, which is
    not part of the sources at hand.  The spec's words: it releases the old
    buffer if it is not null.  It receives the pointer by value. *)
Definition debug_amfree (file : option (list byte)) (line : Z) (p : Z) : M unit :=
  if decide (p = 0) then ret tt else free p.

Definition non_null {A} (o : option A) : bool :=
  match o with Some _ => true | None => false end.

(** *** debug_caller_loc *)

Definition LIST_FIRST (r : list loc_str) : option loc_str := head r.
Definition LIST_REMOVE (ls : loc_str) : M unit :=
  modify (λ st, set_root (filter (λ x, x ≠ ls) (root st)) st).
Definition LIST_INSERT_HEAD (ls : loc_str) : M unit :=
  modify (λ st, set_root (ls :: root st) st).

(** The loop [for (ls = LIST_FIRST(&root); ls != NULL; ls = LIST_NEXT(ls, le))]
    up to its [strcmp] hit. *)
Fixpoint loc_search (loc : list byte) (l : list loc_str) : M (option loc_str) :=
  match l with
  | [] => ret None
  | ls :: rest =>
      let* hit := strcmp_eq loc (str ls) in
      if hit then ret (Some ls) else loc_search loc rest
  end.

(** The content of the static buffer [loc] after the [snprintf]. *)
Definition loc_string (file : list byte) (line : Z) : list byte :=
  let file := match strrchr file "/" with
              | Some p => tail p        (* just the last path element *)
              | None => file
              end in
  snprintf 256 (file ++ bs "@" ++ fmt_d line).

Definition debug_caller_loc (file : option (list byte)) (line : Z) : M descr :=
  match file with
  | None => undefined                   (* strrchr(NULL, '/') *)
  | Some file =>
      let loc := loc_string file line in
      let* r := gets root in
      let* found := loc_search loc r in
      match found with
      | Some ls =>
          do* (if decide (Some ls ≠ LIST_FIRST r)
               then do* LIST_REMOVE ls in LIST_INSERT_HEAD ls
               else ret tt) in
          ret (Interned (str ls))
      | None =>
          let* ls := malloc SIZEOF_loc_str in
          if decide (ls = 0) then ret Unknown
          else
            let* s := malloc (strlen loc + 1) in
            if decide (s = 0) then do* free ls in ret Unknown
            else
              do* strcpy s loc in
              do* malloc_mark ls in
              do* malloc_mark s in
              do* LIST_INSERT_HEAD (LocStr ls s) in
              ret (Interned s)
      end
  end.

(** *** debug_alloc, debug_stralloc *)

Definition debug_alloc (file : option (list byte)) (line : Z) (size : Z) : M Z :=
  let* loc := debug_caller_loc file line in
  do* malloc_enter loc in
  let* addr := malloc (max size 1) in
  if decide (addr = 0) then
    errordump (AllocFailed (default (bs "(unknown)") file)
                           (if non_null file then line else -1) size)
  else
    let* loc := debug_caller_loc file line in
    do* malloc_leave loc in
    ret addr.

Definition debug_stralloc (file : option (list byte)) (line : Z)
    (s : option (list byte)) : M Z :=
  let* loc := debug_caller_loc file line in
  do* malloc_enter loc in
  match s with
  | None => undefined                   (* strlen(NULL) *)
  | Some s =>
      let* addr := debug_alloc file line (size_add (strlen s) 1) in
      do* strcpy addr s in
      let* loc := debug_caller_loc file line in
      do* malloc_leave loc in
      ret addr
  end.

(** *** internal_vstralloc, debug_vstralloc *)

Definition MAX_VSTRALLOC_ARGS : Z := 32.

(** The [while] loop over the variable arguments; [argp] holds the
    arguments before the terminating NULL.  The arrays [arg] and [len] are
    the list [arg] (with [len[b] = strlen(arg[b])]), filled up to [a]. *)
Fixpoint vstralloc_scan (file : option (list byte)) (line : Z)
    (argp : list (list byte)) (a : Z) (arg : list (list byte)) (total_len : Z)
    : M (Z * list (list byte) * Z) :=
  match argp with
  | [] => ret (a, arg, total_len)
  | next :: argp' =>
      let l := strlen next in
      if decide (l = 0) then
        vstralloc_scan file line argp' a arg total_len    (* minor optimisation *)
      else if decide (MAX_VSTRALLOC_ARGS ≤ a) then
        errordump (TooManyArgs (default (bs "(unknown)") file)
                               (if non_null file then line else -1) MAX_VSTRALLOC_ARGS)
      else
        vstralloc_scan file line argp' (a + 1) (arg ++ [next]) (size_add total_len l)
  end.

(** The loop [for (b = 0; b < a; b++)]; returns the final [next] as an
    offset into [result]. *)
Fixpoint vstralloc_copy (result next : Z) (arg : list (list byte)) : M Z :=
  match arg with
  | [] => ret next
  | s :: rest =>
      do* memcpy_str result next s (strlen s) in
      vstralloc_copy result (next + strlen s) rest
  end.

Definition internal_vstralloc (file : option (list byte)) (line : Z)
    (s : option (list byte)) (argp : list (list byte)) : M Z :=
  match s with
  | None => errordump StrIsNull
  | Some s =>
      let* scanned := vstralloc_scan file line argp 1 [s] (strlen s) in
      let '(a, arg, total_len) := scanned in
      let* result := debug_alloc file line (size_add total_len 1) in
      let* next := vstralloc_copy result 0 arg in
      do* store result next [Char NUL] in
      ret result
  end.

Definition debug_vstralloc (file : option (list byte)) (line : Z)
    (s : option (list byte)) (argp : list (list byte)) : M Z :=
  let* loc := debug_caller_loc file line in
  do* malloc_enter loc in
  let* result := internal_vstralloc file line s argp in
  let* loc := debug_caller_loc file line in
  do* malloc_leave loc in
  ret result.

(** *** debug_vstrallocf *)

(** An argument of the printf family. *)
Inductive fmt_arg : Type :=
  | ArgInt (n : Z)
  | ArgStr (s : list byte).

Section Formatted.

(** What the printf family of the platform prints for a format and its
    arguments. *)
Variable render : list byte → list fmt_arg → list byte.

(** [vsnprintf(p, size, fmt, argp)]: writes at most [size - 1] bytes and
    the terminator, and returns the length of the full rendering (an
    [int]: a negative value when that length does not fit). *)
Definition vsnprintf (p size : Z) (fmt : list byte) (argp : list fmt_arg) : M Z :=
  let out := render fmt argp in
  do* (if decide (size = 0) then ret tt
       else store p 0 (Char <$> (snprintf size out ++ [NUL]))) in
  ret (if decide (strlen out ≤ INT_MAX) then strlen out else -1).

Definition debug_vstrallocf (file : option (list byte)) (line : Z)
    (fmt : list byte) (argp : list fmt_arg) : M Z :=
  let* loc := debug_caller_loc file line in
  do* malloc_enter loc in
  let* result := debug_alloc file line MIN_ALLOC in
  let* result :=
    (if decide (result ≠ 0) then
       let* n := vsnprintf result MIN_ALLOC fmt argp in
       let size := to_size_t n in
       if decide (to_size_t MIN_ALLOC ≤ size) then
         do* debug_amfree file line result in
         let* result := debug_alloc file line (size_add size 1) in
         let* _n := vsnprintf result (size_add size 1) fmt argp in
         ret result
       else ret result
     else ret result) in
  let* loc := debug_caller_loc file line in
  do* malloc_leave loc in
  ret result.

End Formatted.

(** A renderer for the examples: the conversions [%d], [%s] and [%%]. *)
Fixpoint render_simple (fmt : list byte) (argp : list fmt_arg) : list byte :=
  match fmt with
  | [] => []
  | c :: fmt' =>
      if decide (c = "%"%byte) then
        match fmt' with
        | d :: fmt'' =>
            if decide (d = "%"%byte) then "%"%byte :: render_simple fmt'' argp
            else match argp with
                 | ArgInt n :: argp' => fmt_d n ++ render_simple fmt'' argp'
                 | ArgStr s :: argp' => s ++ render_simple fmt'' argp'
                 | [] => render_simple fmt'' []
                 end
        | [] => []
        end
      else c :: render_simple fmt' argp
  end.

(** *** safe_env *)

(** The process as [safe_env] sees it: [environ] and the identifiers. *)
Record process : Type := Process {
  environ : list (list byte);
  uid : Z; euid : Z;
  gid : Z; egid : Z;
}.

(** [getenv(name)]: the value of the first entry ["name=value"]. *)
Fixpoint getenv (env : list (list byte)) (name : list byte) : option (list byte) :=
  match env with
  | [] => None
  | e :: env' =>
      if bool_decide (take (length name + 1) e = name ++ bs "=")
      then Some (drop (length name + 1) e)
      else getenv env' name
  end.

(** The value of a [char **]: the address of an allocated array, or
    [safe_env_list + SAFE_ENV_CNT - 1], which points to the NULL that ends
    the static list. *)
Inductive char_pp : Type :=
  | StaticEnd
  | Array (q : Z).

(** The [stralloc] macro of amanda.h at its place of use. *)
Definition stralloc (s : list byte) : M Z :=
  debug_stralloc (Some (bs "alloc.c")) 461 (Some s).

Section SafeEnv.

(** The build: [__CYGWIN__] and [NEED_PATH_ENV]. *)
Variables (CYGWIN NEED_PATH_ENV : bool).

Definition safe_env_list : list (list byte) :=
  [bs "TZ"] ++ (if CYGWIN then [bs "SYSTEMROOT"] else []) ++
  (if NEED_PATH_ENV then [bs "PATH"] else []) ++ [bs "DISPLAY"].

(** The names and the NULL that ends them. *)
Definition SAFE_ENV_CNT : Z := Z.of_nat (length safe_env_list) + 1.

(** The copying loop of the first branch; [p] is an index into [q]. *)
Fixpoint safe_env_copy (q p : Z) (env : list (list byte)) : M Z :=
  match env with
  | [] => ret p
  | e :: env' =>
      if negb (strncmp_eq (bs "LANG=") e 5) && negb (strncmp_eq (bs "LC_") e 3)
      then
        let* s := stralloc e in
        do* store q p [Ptr s] in
        safe_env_copy q (p + 1) env'
      else safe_env_copy q p env'
  end.

(** The loop of the second branch over [safe_env_list]; [idx] is the
    index of [q] into the array.  Returns the final index. *)
Fixpoint safe_env_build (env : list (list byte)) (array idx : Z)
    (names : list (list byte)) : M Z :=
  match names with
  | [] => ret idx
  | name :: names' =>
      match getenv env name with
      | None => safe_env_build env array idx names'   (* no variable to dup *)
      | Some v =>
          let l1 := strlen name in                (* variable name w/o null *)
          let l2 := size_add (strlen v) 1 in      (* include null byte here *)
          let* s := malloc (size_add (size_add l1 1) l2) in
          if decide (s = 0) then ret idx          (* out of memory *)
          else
            do* store array idx [Ptr s] in        (* save the new pointer *)
            do* memcpy_str s 0 name l1 in         (* left hand side *)
            do* store s l1 [Char "="%byte] in
            do* memcpy_str s (l1 + 1) v l2 in     (* right hand side and null *)
            safe_env_build env array (idx + 1) names'
      end
  end.

Definition safe_env (pr : process) : M char_pp :=
  let envp := StaticEnd in
  if decide (uid pr = euid pr ∧ gid pr = egid pr) then
    let env_cnt := 1 + Z.of_nat (length (environ pr)) in
    if decide (INT_MAX < env_cnt) then undefined        (* int overflow *)
    else
      let* q := malloc_ptrs (size_mul env_cnt SIZEOF_ptr) in
      if decide (q ≠ 0) then
        let envp := Array q in
        let* p := safe_env_copy q 0 (environ pr) in
        do* store q p [Ptr 0] in
        ret envp
      else ret envp
  else
    let* q := malloc_ptrs (size_mul SAFE_ENV_CNT SIZEOF_ptr) in
    if decide (q ≠ 0) then
      let envp := Array q in
      let* idx := safe_env_build (environ pr) q 0 safe_env_list in
      do* store q idx [Ptr 0] in                        (* terminate the list *)
      ret envp
    else ret envp.

End SafeEnv.

(** The strings that a [char **] lists, up to its NULL. *)
Fixpoint env_strings (h : gmap Z (list memval)) (cells : list memval)
    : option (list (list byte)) :=
  match cells with
  | Ptr p :: rest =>
      if decide (p = 0) then Some []
      else s ← cstring_at h p; l ← env_strings h rest; Some (s :: l)
  | _ => None
  end.

Definition read_env (st : state) (envp : char_pp) : option (list (list byte)) :=
  match envp with
  | StaticEnd => Some []
  | Array q => heap st !! q ≫= env_strings (heap st)
  end.

(** *** debug_amtable_alloc, debug_amtable_free *)

(** One call of [init_func] on [table + off]: the function rewrites the element
    it is given; the call is logged. *)
Definition call_init (f : list memval → list memval) (table off elsize : Z) : M unit :=
  let* e := load table off elsize in
  do* store table off (f e) in
  modify (λ st, State (heap st) (fails st) (root st) (inits st ++ [(table, off)])).

(** The loop [for (i = *current; i < table_count_new; i++)], [n] rounds
    from [i]. *)
Fixpoint amtable_init (f : list memval → list memval) (table elsize i : Z) (n : nat)
    : M unit :=
  match n with
  | O => ret tt
  | S n' =>
      do* call_init f table (size_mul i elsize) elsize in
      amtable_init f table elsize (size_add i 1) n'
  end.

(** Returns the [int] result and the new values of [*table] and
    [*current]. *)
Definition debug_amtable_alloc (file : option (list byte)) (line : Z)
    (table current elsize count bump : Z)
    (init_func : option (list memval → list memval)) : M (Z * Z * Z) :=
  if decide (current ≤ count) then
    let bump := to_size_t bump in
    if decide (bump = 0) then undefined                   (* division by zero *)
    else
      let table_count_new := size_mul (size_add count bump / bump) bump in
      let* table_new := debug_alloc file line (size_mul table_count_new elsize) in
      do* (if decide (0 ≠ table) then
             do* memcpy table_new 0 table 0 (size_mul current elsize) in
             free table
           else ret tt) in
      let table := table_new in
      do* memset table (size_mul current elsize) x00
            (size_mul (size_sub table_count_new current) elsize) in
      do* (match init_func with
           | Some f =>
               amtable_init f table elsize current
                 (Z.to_nat (table_count_new - current))
           | None => ret tt
           end) in
      ret (0, table, table_count_new)
  else ret (0, table, current).

Definition debug_amtable_free (file : option (list byte)) (line : Z)
    (table current : Z) : M (Z * Z) :=
  do* debug_amfree file line table in
  ret (table, 0).

(** *** debug_newalloc, debug_newstralloc, debug_newvstralloc *)


Definition debug_newstralloc (file : option (list byte)) (line : Z)
    (oldstr : Z) (newstr : option (list byte)) : M Z :=
  let* loc := debug_caller_loc file line in
  do* malloc_enter loc in
  let* addr := debug_stralloc file line newstr in
  do* debug_amfree file line oldstr in
  let* loc := debug_caller_loc file line in
  do* malloc_leave loc in
  ret addr.

Definition debug_newvstralloc (file : option (list byte)) (line : Z)
    (oldstr : Z) (newstr : option (list byte)) (argp : list (list byte)) : M Z :=
  let* loc := debug_caller_loc file line in
  do* malloc_enter loc in
  let* result := internal_vstralloc file line newstr argp in
  do* debug_amfree file line oldstr in
  let* loc := debug_caller_loc file line in
  do* malloc_leave loc in
  ret result.

(** *** debug_newvstrallocf *)

Section FormattedReplace.

Variable render : list byte → list fmt_arg → list byte.


End FormattedReplace.

(** *** debug_vstrextend *)

(** The string at a pointer that the code passes on as a [const char *]. *)
Definition read_string (p : Z) : M (list byte) :=
  λ st, match cstring_at (heap st) p with
        | Some s => Ok s st
        | None => Undefined
        end.

(** [oldstr] is the value of [*oldstr] at the call; the result is the new
    value of [*oldstr], which is also the value returned.  The string at
    [*oldstr] is read where it is handed to [internal_vstralloc]. *)
Definition debug_vstrextend (file : option (list byte)) (line : Z)
    (oldstr : Z) (ap : list (list byte)) : M Z :=
  let keep := oldstr in
  let* s := (if decide (oldstr = 0) then ret (bs "") else read_string oldstr) in
  let* oldstr := internal_vstralloc file line (Some s) ap in
  do* debug_amfree file line keep in
  ret oldstr.

(** ** States *)

Definition init_state (fl : list bool) : state := State ∅ fl [] [].

(** The strings of the registry are live and terminated, so that the
    [strcmp] of [debug_caller_loc] reads inside their blocks. *)
Definition registry_ok (st : state) : Prop :=
  Forall (λ ls, is_Some (cstring_at (heap st) (str ls))) (root st).

(** [st'] is [st] after allocations only: every block of [st] is unchanged,
    and a string that the registry gained lies outside the heap of [st]. *)
Record extends (st st' : state) : Prop := Extends {
  ext_heap : heap st ⊆ heap st';
  ext_strs : ∀ p, is_Some (heap st !! p) → p ∈ str <$> root st' → p ∈ str <$> root st;
  ext_inits : inits st' = inits st;
  ext_fails : fails st = [] → fails st' = [];
}.

(** [returns m st Q F]: from [st] the computation [m] either returns a value
    and a state in [Q], or ends in [errordump] with a message in [F]; its
    behaviour is defined. *)
Definition returns {A} (m : M A) (st : state)
    (Q : A → state → Prop) (F : fatal → Prop) : Prop :=
  match m st with
  | Ok a st' => Q a st'
  | Fatal e => F e
  | Undefined => False
  end.

Definition never : fatal → Prop := λ _, False.

(** The cells of a block that holds the string [s] and its terminator. *)
Definition cstr (s : list byte) : list memval := Char <$> (s ++ [NUL]).

(** A block of [n] zero bytes. *)
Definition zeros (n : Z) : list memval := replicate (Z.to_nat n) (Char x00).

(** The string a descriptor points to. *)
Definition descr_string (st : state) (d : descr) : option (list byte) :=
  match d with
  | Unknown => Some (bs "??")
  | Interned s => cstring_at (heap st) s
  end.

(** The sum of the lengths of the arguments. *)
Definition total_length (l : list (list byte)) : Z :=
  foldr (λ s n, strlen s + n) 0 l.

(** The arguments that the scan of [internal_vstralloc] keeps. *)
Definition nonempty_args (argp : list (list byte)) : list (list byte) :=
  filter (λ s, s ≠ []) argp.

(** The calls of the initializer that a growth from [i] by [n] elements
    makes, in their order. *)
Definition init_calls (table elsize i : Z) (n : nat) : list (Z * Z) :=
  (λ k, (table, (i + Z.of_nat k) * elsize)) <$> seq 0 n.

(** The content of an element that a growth added. *)
Definition new_element (init_func : option (list memval → list memval))
    (elsize : Z) : list memval :=
  match init_func with
  | Some f => f (zeros elsize)
  | None => zeros elsize
  end.

(** The capacity that a growth to hold index [count] sets. *)
Definition grown_capacity (count bump : Z) : Z := (count / bump + 1) * bump.

(** A table handle and its capacity as the caller holds them: the null
    handle of an empty table, or a live block of [current] elements (which
    is not a string of the registry); [old] is its content. *)
Definition table_ok (st : state) (table current elsize : Z) (old : list memval) : Prop :=
  if decide (table = 0) then current = 0 ∧ old = []
  else heap st !! table = Some old ∧
       current * elsize ≤ Z.of_nat (length old) ∧
       table ∉ str <$> root st.

(** An initializer writes the element it is given and no more. *)
Definition init_ok (init_func : option (list memval → list memval)) : Prop :=
  match init_func with
  | Some g => ∀ e, length (g e) = length e
  | None => True
  end.

(** ** Environment lists *)

(** The array at [q] holds the pointers [ptrs] and then [k] slots not yet
    written, and the pointers lead to the strings [ss]. *)
Definition env_array (h : gmap Z (list memval)) (q : Z)
    (ptrs : list Z) (ss : list (list byte)) (k : nat) : Prop :=
  h !! q = Some ((Ptr <$> ptrs) ++ replicate k Undef) ∧
  Forall2 (λ p s, p ≠ 0 ∧ cstring_at h p = Some s) ptrs ss.

(** The name of an entry ["NAME=VALUE"]. *)
Fixpoint env_name (e : list byte) : list byte :=
  match e with
  | [] => []
  | b :: e' => if decide (b = "="%byte) then [] else b :: env_name e'
  end.

(** The names that the first branch of [safe_env] leaves out. *)
Definition locale_name (n : list byte) : Prop :=
  n = bs "LANG" ∨ bs "LC_" `prefix_of` n.

#[global] Instance locale_name_dec n : Decision (locale_name n).
Proof. unfold locale_name. apply _. Defined.

(** An entry of a well-formed environment: a string of the form
    ["NAME=VALUE"] that fits in memory. *)
Definition entry_ok (e : list byte) : Prop :=
  (NUL ∉ e) ∧ ("="%byte ∈ e) ∧ strlen e + 1 < SIZE_T_MOD.

(** The entries that the second branch builds: for each name of the list
    that is set, in the order of the list, ["NAME=VALUE"]. *)
Definition allowed_entries (env names : list (list byte)) : list (list byte) :=
  omap (λ name, (λ v, name ++ bs "=" ++ v) <$> getenv env name) names.

(** The entries that the first branch copies. *)
Definition kept_entries (env : list (list byte)) : list (list byte) :=
  filter (λ e, ¬ locale_name (env_name e)) env.

#[global] Instance entry_ok_dec e : Decision (entry_ok e).
Proof. unfold entry_ok. apply _. Defined.

(** A process for the examples: four variables, two of them locale
    variables; the identifiers match or not. *)
Definition example_environ : list (list byte) :=
  [bs "A=1"; bs "LANG=C"; bs "LC_ALL=C"; bs "TZ=UTC"].

Definition example_process (privileged : bool) : process :=
  Process example_environ 1000 (if privileged then 0 else 1000) 100 100.

(** The example of the spec: three [int] elements, [bump = 8]. *)
Definition three_ints : list memval :=
  Char <$> [x01; x00; x00; x00; x02; x00; x00; x00; x03; x00; x00; x00].

Definition three_ints_state : state := State {[7 := three_ints]} [] [] [].

(** ** Further notions *)

(** The strings of the registry, in the order of the list. *)
Definition registry_contents (st : state) : list (option (list byte)) :=
  (λ ls, cstring_at (heap st) (str ls)) <$> root st.

(** A pointer that the caller owns and hands over for release: null, or a
    live block that is not a string of the registry. *)
Definition owned (st : state) (p : Z) : Prop :=
  p = 0 ∨ (is_Some (heap st !! p) ∧ p ∉ str <$> root st).

(** A string handle as [debug_vstrextend] takes it: null (read as the empty
    string) or an owned block that holds the string [s]. *)
Definition string_handle (st : state) (p : Z) (s : list byte) : Prop :=
  if decide (p = 0) then s = []
  else cstring_at (heap st) p = Some s ∧ p ∉ str <$> root st.

(** A state whose registry holds the one site ["f.c@1"]. *)
Definition one_site_state (fl : list bool) : state :=
  State {[1 := replicate (Z.to_nat SIZEOF_loc_str) Undef; 2 := cstr (bs "f.c@1")]}
        fl [LocStr 1 2] [].

(** The computation [m] drops no node of the registry. *)
Definition keeps_nodes {A} (m : M A) : Prop :=
  ∀ st a st', m st = Ok a st' → root st ⊆ root st'.

(** What a caller sees of a replacing allocator that took the owned
    pointer [old] in [st] and returned [p] in [st']: [p] is a fresh block
    with the cells [blk], distinct from [old] and outside the registry; the
    caller's other blocks are unchanged; and under [settled], no block is
    allocated at the address [old] in [st'].  (The code always releases
    [old]; when a registry call that follows the release allocates, the
    platform may hand out the address again.) *)
Definition replaces (st : state) (old : Z) (settled : Prop)
    (blk : list memval) (p : Z) (st' : state) : Prop :=
  p ≠ 0 ∧ p ≠ old ∧ heap st !! p = None ∧ heap st' !! p = Some blk ∧
  registry_ok st' ∧ (p ∉ str <$> root st') ∧ inits st' = inits st ∧
  (∀ q b, q ≠ old → heap st !! q = Some b → heap st' !! q = Some b) ∧
  (fails st = [] → fails st' = []) ∧
  (settled → old ≠ 0 → heap st' !! old = None).

Section FormattedCore.

Variable render : list byte → list fmt_arg → list byte.


End FormattedCore.

(** A state whose one block holds the string ["hello"]. *)
Definition hello_state (fl : list bool) : state :=
  State {[5 := cstr (bs "hello")]} fl [] [].

(** A renderer whose output does not fit an [int], whatever it is given. *)
Definition render_big (fmt : list byte) (argp : list fmt_arg) : list byte :=
  replicate (Z.to_nat (INT_MAX + 1)) "x"%byte.

(** The position of the first refusal among the coming answers of the
    platform allocator; [None] when it refuses none. *)
Fixpoint first_refusal (fl : list bool) : option nat :=
  match fl with
  | [] => None
  | true :: _ => Some O
  | false :: fl' => S <$> first_refusal fl'
  end.

(** No refusal lies ahead. *)
Definition calm (st : state) : Prop := true ∉ fails st.

(** From a state with no refusal ahead, [m] does not end in [errordump];
    when it returns, its value is in [P] and no refusal lies ahead. *)
Definition calmly {A} (m : M A) (P : A → Prop) : Prop :=
  ∀ st, calm st →
    match m st with
    | Ok a st' => calm st' ∧ P a
    | Fatal _ => False
    | Undefined => True
    end.

(** * Properties *)

Ltac simpl_state := cbn [heap fails root inits set_heap set_root] in *.


(** ** The monad *)

Lemma returns_ret {A} (a : A) st (Q : A → state → Prop) F :
  Q a st → returns (ret a) st Q F.
Proof. done. Qed.

Lemma returns_bind {A B} (m : M A) (k : A → M B) st Q F :
  returns m st (λ a st', returns (k a) st' Q F) F →
  returns (bind m k) st Q F.
Proof. unfold returns, bind. by destruct (m st). Qed.

Lemma returns_mono {A} (m : M A) st (Q Q' : A → state → Prop) (F F' : fatal → Prop) :
  returns m st Q F →
  (∀ a st', Q a st' → Q' a st') → (∀ e, F e → F' e) →
  returns m st Q' F'.
Proof. unfold returns. destruct (m st); eauto. Qed.

Lemma returns_ok {A} (m : M A) st Q :
  returns m st Q never → ∃ a st', m st = Ok a st' ∧ Q a st'.
Proof. unfold returns, never. destruct (m st); [eauto | done | done]. Qed.

Lemma returns_step {A} (m : M A) st a st' (Q : A → state → Prop) F :
  m st = Ok a st' → Q a st' → returns m st Q F.
Proof. unfold returns. by intros ->. Qed.

Lemma returns_inv {A} (m : M A) st Q F a st' :
  returns m st Q F → m st = Ok a st' → Q a st'.
Proof. unfold returns. intros H E. by rewrite E in H. Qed.

(** ** The heap *)

Lemma fresh_addr_spec h : fresh_addr h ≠ 0 ∧ h !! fresh_addr h = None.
Proof.
  unfold fresh_addr.
  pose proof (is_fresh ({[0]} ∪ dom h)) as Hf.
  split.
  - intros E. apply Hf. rewrite E. set_solver.
  - apply not_elem_of_dom. set_solver.
Qed.

#[global] Instance extends_refl : Reflexive extends.
Proof. intros st. by split. Qed.

#[global] Instance extends_trans : Transitive extends.
Proof.
  intros a b c [H1 H2 H3 H4] [H5 H6 H7 H8]. split.
  - by etrans.
  - intros p [x Hp] Hin. apply H2; [by eexists|]. apply H6; [|done].
    exists x. by eapply lookup_weaken.
  - congruence.
  - auto.
Qed.

Lemma malloc_returns n st (Q : Z → state → Prop) F :
  (fails st ≠ [] → Q 0 (State (heap st) (tail (fails st)) (root st) (inits st))) →
  (∀ p, p ≠ 0 → heap st !! p = None →
     Q p (State (<[p := replicate (Z.to_nat n) Undef]> (heap st))
                (tail (fails st)) (root st) (inits st))) →
  returns (malloc n) st Q F.
Proof.
  intros H0 H1. unfold returns, malloc.
  destruct (fresh_addr_spec (heap st)) as [Hn Hf].
  destruct (fails st) as [|[] fs] eqn:E; simpl; auto.
Qed.

Lemma free_returns p st blk (Q : unit → state → Prop) F :
  heap st !! p = Some blk →
  (p ≠ 0 → Q tt (set_heap (delete p (heap st)) st)) →
  (p = 0 → Q tt st) →
  returns (free p) st Q F.
Proof.
  intros Hp HQ H0. unfold returns, free.
  destruct (decide (p = 0)); [auto|]. rewrite Hp. auto.
Qed.

Lemma store_returns p off d st blk (Q : unit → state → Prop) F :
  heap st !! p = Some blk →
  0 ≤ off → off + Z.of_nat (length d) ≤ Z.of_nat (length blk) →
  Q tt (set_heap (<[p := take (Z.to_nat off) blk ++ d ++
                         drop (Z.to_nat off + length d) blk]> (heap st)) st) →
  returns (store p off d) st Q F.
Proof.
  intros Hp H0 H1 HQ. unfold returns, store. rewrite Hp.
  destruct (decide _) as [|n]; [done | lia].
Qed.

Lemma load_returns p off n st blk (Q : list memval → state → Prop) F :
  heap st !! p = Some blk →
  0 ≤ off → 0 ≤ n → off + n ≤ Z.of_nat (length blk) →
  Q (take (Z.to_nat n) (drop (Z.to_nat off) blk)) st →
  returns (load p off n) st Q F.
Proof.
  intros Hp H0 H1 H2 HQ. unfold returns, load. rewrite Hp.
  destruct (decide _) as [|c]; [done | lia].
Qed.

Lemma malloc_returns_exact n st (Q : Z → state → Prop) F :
  (head (fails st) = Some true →
   Q 0 (State (heap st) (tail (fails st)) (root st) (inits st))) →
  (head (fails st) ≠ Some true → ∀ p, p ≠ 0 → heap st !! p = None →
     Q p (State (<[p := replicate (Z.to_nat n) Undef]> (heap st))
                (tail (fails st)) (root st) (inits st))) →
  returns (malloc n) st Q F.
Proof.
  intros H0 H1. unfold returns, malloc.
  destruct (fresh_addr_spec (heap st)) as [Hn Hf].
  destruct (fails st) as [|[] fs] eqn:E; simpl in *; auto.
Qed.

(** ** Allocations that are not refused *)

Lemma calm_tail st st' : calm st → fails st' = tail (fails st) → calm st'.
Proof.
  unfold calm. intros Hc -> Hin. apply Hc.
  destruct (fails st); [done | by right].
Qed.

Lemma calmly_ret {A} (a : A) (P : A → Prop) : P a → calmly (ret a) P.
Proof. by intros HP st Hc. Qed.

Lemma calmly_bind {A B} (m : M A) (k : A → M B) (P : A → Prop) (Q : B → Prop) :
  calmly m P → (∀ a, P a → calmly (k a) Q) → calmly (bind m k) Q.
Proof.
  intros Hm Hk st Hc. unfold bind. specialize (Hm st Hc).
  destruct (m st) as [a st1| |]; [|done..].
  destruct Hm as [Hc1 HP]. by apply Hk.
Qed.

Lemma calmly_mono {A} (m : M A) (P Q : A → Prop) :
  calmly m P → (∀ a, P a → Q a) → calmly m Q.
Proof.
  intros Hm HPQ st Hc. specialize (Hm st Hc).
  destruct (m st); [|done..]. destruct Hm. auto.
Qed.

Lemma calmly_undefined {A} (P : A → Prop) : calmly undefined P.
Proof. by intros st Hc. Qed.

Lemma calmly_gets {A} (g : state → A) : calmly (gets g) (λ _, True).
Proof. by intros st Hc. Qed.

Lemma calmly_modify (g : state → state) :
  (∀ st, fails (g st) = fails st) → calmly (modify g) (λ _, True).
Proof. intros Hg st Hc. unfold modify, calm. by rewrite Hg. Qed.

Lemma calmly_malloc n : calmly (malloc n) (λ p, p ≠ 0).
Proof.
  intros st Hc. unfold malloc.
  destruct (fresh_addr_spec (heap st)) as [Hp _].
  destruct (fails st) as [|[] fl] eqn:E.
  - split; [|done]. unfold calm. simpl. apply not_elem_of_nil.
  - exfalso. apply Hc. rewrite E. left.
  - split; [|done]. unfold calm in *. simpl. rewrite E in Hc.
    by apply not_elem_of_cons in Hc as [_ ?].
Qed.

Lemma calmly_free p : calmly (free p) (λ _, True).
Proof.
  intros st Hc. unfold free. destruct (decide (p = 0)); [done|].
  by destruct (heap st !! p).
Qed.

Lemma calmly_store p off d : calmly (store p off d) (λ _, True).
Proof.
  intros st Hc. unfold store. destruct (heap st !! p); [|done].
  by destruct (decide _).
Qed.

Lemma calmly_load p off n : calmly (load p off n) (λ _, True).
Proof.
  intros st Hc. unfold load. destruct (heap st !! p); [|done].
  by destruct (decide _).
Qed.

Lemma calmly_loc_search loc l : calmly (loc_search loc l) (λ _, True).
Proof.
  induction l as [|ls l IH]; simpl; [by apply calmly_ret|].
  eapply calmly_bind with (P := λ _, True).
  - intros st Hc. unfold strcmp_eq. by destruct (cstring_at (heap st) (str ls)).
  - intros [] _; [by apply calmly_ret | done].
Qed.

Lemma calmly_debug_caller_loc file line :
  calmly (debug_caller_loc file line) (λ _, True).
Proof.
  unfold debug_caller_loc. destruct file as [f|]; [|apply calmly_undefined].
  intros st Hc. unfold bind at 1, gets at 1.
  remember (root st) as r eqn:Hr. clear Hr.
  revert st Hc. fold (calmly (A := descr)).
  eapply calmly_bind; [apply calmly_loc_search|]. intros [ls|] _.
  - eapply calmly_bind with (P := λ _, True); [|intros; by apply calmly_ret].
    destruct (decide _); [|by apply calmly_ret].
    eapply calmly_bind; [by apply calmly_modify | intros; by apply calmly_modify].
  - eapply calmly_bind; [apply calmly_malloc|]. intros n Hn.
    rewrite decide_False by done.
    eapply calmly_bind; [apply calmly_malloc|]. intros s Hs.
    rewrite decide_False by done.
    eapply calmly_bind; [apply calmly_store|]. intros _ _.
    do 2 (eapply calmly_bind; [by apply (calmly_ret tt (λ _, True))|]; intros _ _).
    eapply calmly_bind; [by apply calmly_modify | intros; by apply calmly_ret].
Qed.

Lemma calmly_debug_alloc file line size :
  calmly (debug_alloc file line size) (λ _, True).
Proof.
  unfold debug_alloc.
  eapply calmly_bind; [apply calmly_debug_caller_loc|]. intros d _.
  eapply calmly_bind; [by apply (calmly_ret tt (λ _, True))|]. intros _ _.
  eapply calmly_bind; [apply calmly_malloc|]. intros p Hp.
  rewrite decide_False by done.
  eapply calmly_bind; [apply calmly_debug_caller_loc|]. intros d' _.
  eapply calmly_bind; [by apply (calmly_ret tt (λ _, True)) | intros; by apply calmly_ret].
Qed.

Lemma calmly_debug_stralloc file line s :
  calmly (debug_stralloc file line s) (λ _, True).
Proof.
  unfold debug_stralloc.
  eapply calmly_bind; [apply calmly_debug_caller_loc|]. intros d _.
  eapply calmly_bind; [by apply (calmly_ret tt (λ _, True))|]. intros _ _.
  destruct s as [s|]; [|apply calmly_undefined].
  eapply calmly_bind; [apply calmly_debug_alloc|]. intros p _.
  eapply calmly_bind; [apply calmly_store|]. intros _ _.
  eapply calmly_bind; [apply calmly_debug_caller_loc|]. intros d' _.
  eapply calmly_bind; [by apply (calmly_ret tt (λ _, True)) | intros; by apply calmly_ret].
Qed.

Lemma calmly_safe_env_copy q p env : calmly (safe_env_copy q p env) (λ _, True).
Proof.
  revert p. induction env as [|e env IH]; intros p; cbn [safe_env_copy].
  - by apply calmly_ret.
  - destruct (_ && _); [|apply IH].
    eapply calmly_bind; [apply calmly_debug_stralloc|]. intros s _.
    eapply calmly_bind; [apply calmly_store | intros; apply IH].
Qed.

Lemma calmly_amtable_init g table elsize i n :
  calmly (amtable_init g table elsize i n) (λ _, True).
Proof.
  revert i. induction n as [|n IH]; intros i; cbn [amtable_init].
  - by apply calmly_ret.
  - eapply calmly_bind with (P := λ _, True); [|intros; apply IH].
    unfold call_init.
    eapply calmly_bind; [apply calmly_load|]. intros el _.
    eapply calmly_bind; [apply calmly_store | intros; by apply calmly_modify].
Qed.

Lemma calmly_debug_amtable_alloc file line table current elsize count bump init_func :
  calmly (debug_amtable_alloc file line table current elsize count bump init_func)
         (λ _, True).
Proof.
  unfold debug_amtable_alloc.
  destruct (decide (current ≤ count)); [|by apply calmly_ret].
  destruct (decide _); [apply calmly_undefined|].
  eapply calmly_bind; [apply calmly_debug_alloc|]. intros tn _.
  eapply calmly_bind with (P := λ _, True).
  { destruct (decide _); [|by apply calmly_ret].
    eapply calmly_bind; [|intros; apply calmly_free].
    unfold memcpy. eapply calmly_bind; [apply calmly_load | intros; apply calmly_store]. }
  intros _ _.
  eapply calmly_bind; [apply calmly_store|]. intros _ _.
  eapply calmly_bind with (P := λ _, True); [|intros; by apply calmly_ret].
  destruct init_func; [apply calmly_amtable_init | by apply calmly_ret].
Qed.

(** A computation does not end in [errordump] unless a refusal lies
    ahead. *)
Lemma calmly_fatal {A} (m : M A) (P : A → Prop) st e :
  calmly m P → m st = Fatal e → true ∈ fails st.
Proof.
  intros Hm E. destruct (decide (true ∈ fails st)) as [|Hc]; [done|].
  specialize (Hm st Hc). by rewrite E in Hm.
Qed.

Lemma returns_refused {A} (m : M A) (P : A → Prop) st Q F :
  calmly m P → returns m st Q F →
  returns m st Q (λ e, F e ∧ true ∈ fails st).
Proof.
  intros Hm H. unfold returns in *.
  destruct (m st) as [a st'|e|] eqn:E; [done | | done].
  split; [done|]. by eapply calmly_fatal.
Qed.

(** ** Strings in memory *)

Lemma cstr_app s rest : cstr s ++ rest = (Char <$> s) ++ Char NUL :: rest.
Proof. unfold cstr. by rewrite fmap_app, <- app_assoc. Qed.

Lemma cstring_of_cstr_is_Some s rest : is_Some (cstring_of (cstr s ++ rest)).
Proof.
  rewrite cstr_app. induction s as [|b s IH]; csimpl.
  - by eexists.
  - destruct (decide (b = NUL)); [by eexists|].
    destruct IH as [t ->]. by eexists.
Qed.

Lemma cstring_of_cstr s rest : NUL ∉ s → cstring_of (cstr s ++ rest) = Some s.
Proof.
  rewrite cstr_app. induction s as [|b s IH]; csimpl; intros Hs.
  - done.
  - apply not_elem_of_cons in Hs as [Hb Hs].
    rewrite decide_False; [|done]. by rewrite IH.
Qed.

Lemma length_cstr s : length (cstr s) = S (length s).
Proof. unfold cstr. rewrite length_fmap, length_app. simpl. lia. Qed.

(** ** The registry *)

Lemma registry_ok_agree st st' :
  registry_ok st → root st' = root st →
  (∀ p, p ∈ str <$> root st → heap st' !! p = heap st !! p) →
  registry_ok st'.
Proof.
  unfold registry_ok. intros Hok -> Hag.
  rewrite Forall_forall in *. intros ls Hls.
  unfold cstring_at. rewrite Hag; [by apply Hok|].
  apply list_elem_of_fmap. eauto.
Qed.

Lemma registry_ok_live st p :
  registry_ok st → p ∈ str <$> root st → is_Some (heap st !! p).
Proof.
  unfold registry_ok. rewrite Forall_forall. intros Hok Hp.
  apply list_elem_of_fmap in Hp as (ls & -> & Hls).
  destruct (Hok _ Hls) as [s Hs]. unfold cstring_at in Hs.
  destruct (heap st !! str ls); [by eexists | done].
Qed.

Lemma registry_ok_fresh st p :
  registry_ok st → heap st !! p = None → p ∉ str <$> root st.
Proof.
  intros Hok Hp Hin. destruct (registry_ok_live _ _ Hok Hin) as [x Hx]. congruence.
Qed.

Lemma loc_search_ok loc l st :
  Forall (λ ls, is_Some (cstring_at (heap st) (str ls))) l →
  ∃ r, loc_search loc l st = Ok r st ∧
       match r with
       | Some ls => ls ∈ l ∧ cstring_at (heap st) (str ls) = Some loc
       | None => Forall (λ ls, cstring_at (heap st) (str ls) ≠ Some loc) l
       end.
Proof.
  induction 1 as [|ls l [s Hs] Hl IH]; simpl.
  - by exists None.
  - unfold bind, strcmp_eq. rewrite Hs.
    destruct (bool_decide_reflect (loc = s)) as [->|Hne].
    + exists (Some ls). split; [done|]. split; [left | done].
    + destruct IH as (r & -> & Hr). exists r. split; [done|].
      destruct r as [ls'|].
      * destruct Hr. split; [by right | done].
      * constructor; [congruence | done].
Qed.

Lemma registry_ok_mono st st' :
  registry_ok st → heap st ⊆ heap st' → root st' = root st → registry_ok st'.
Proof.
  intros Hok Hsub Hr. eapply registry_ok_agree; [done..|].
  intros p Hp. destruct (registry_ok_live _ _ Hok Hp) as [x Hx].
  rewrite Hx. by eapply lookup_weaken.
Qed.

Lemma whole_block (blk d : list memval) :
  length d = length blk →
  take (Z.to_nat 0) blk ++ d ++ drop (Z.to_nat 0 + length d) blk = d.
Proof.
  intros E. change (Z.to_nat 0) with 0%nat. rewrite take_0. simpl.
  rewrite E, drop_all. apply app_nil_r.
Qed.

(** What one call of [debug_caller_loc] does: it is defined on a
    well-formed registry, only allocates, and a descriptor other than the
    literal is the string of the node now at the head of the list. *)
Lemma debug_caller_loc_spec f line st :
  registry_ok st →
  returns (debug_caller_loc (Some f) line) st
    (λ d st',
       registry_ok st' ∧ extends st st' ∧
       match d with
       | Unknown => root st' = root st ∧ fails st ≠ []
       | Interned s =>
           (∃ ls rest, root st' = ls :: rest ∧ str ls = s) ∧
           (NUL ∉ loc_string f line →
            cstring_at (heap st') s = Some (loc_string f line))
       end) never.
Proof.
  intros Hok. unfold debug_caller_loc.
  set (loc := loc_string f line).
  apply returns_bind. unfold gets at 1, returns at 1.
  destruct (loc_search_ok loc (root st) st Hok) as (r & Hr & Hspec).
  apply returns_bind. unfold returns at 1. rewrite Hr.
  destruct r as [ls|].
  - (* a repeat *)
    destruct Hspec as [Hin Hs].
    apply returns_bind.
    destruct (decide (Some ls ≠ LIST_FIRST (root st))) as [Hne|He].
    + apply returns_bind. unfold LIST_REMOVE, LIST_INSERT_HEAD, modify, returns, ret.
      simpl. split; [|split; [|split]].
      * unfold registry_ok in *. simpl. rewrite Forall_forall in *.
        intros x [->|Hx]%elem_of_cons; [by apply Hok|].
        apply Hok. by apply list_elem_of_filter in Hx as [_ ?].
      * split; simpl; try done.
        intros p _. intros [->|Hp]%elem_of_cons.
        -- apply list_elem_of_fmap. eauto.
        -- apply list_elem_of_fmap in Hp as (x & -> & Hx).
           apply list_elem_of_filter in Hx as [_ ?].
           apply list_elem_of_fmap. eauto.
      * eauto.
      * done.
    + unfold returns, ret. simpl. split; [done|]. split; [done|]. split; [|done].
      apply dec_stable in He. unfold LIST_FIRST in He.
      destruct (root st) as [|hd tl]; simplify_eq/=. eauto.
  - (* a new entry *)
    apply returns_bind, malloc_returns.
    + intros Hf. rewrite decide_True by done. unfold returns, ret.
      split; [by eapply registry_ok_agree|]. split; [|done].
      by split.
    + intros ls Hls0 Hls. rewrite decide_False by done.
      apply returns_bind, malloc_returns.
      * intros Hf. rewrite decide_True by done.
        apply returns_bind. eapply free_returns.
        { apply lookup_insert_eq. }
        2:{ done. }
        intros _. unfold returns, ret. simpl_state.
        rewrite delete_insert_id by done.
        split; [by eapply registry_ok_agree|]. split.
        { split; simpl_state; try done. by intros ->. }
        split; [done|]. by intros E; rewrite E in Hf.
      * intros s Hs0 Hs. rewrite decide_False by done. simpl_state.
        apply lookup_insert_None in Hs as [Hs Hne].
        apply returns_bind. unfold strcpy. eapply store_returns.
        { apply lookup_insert_eq. }
        { done. }
        { fold (cstr loc). rewrite length_cstr, length_replicate. unfold strlen. lia. }
        fold (cstr loc). rewrite whole_block.
        2:{ rewrite length_cstr, length_replicate. unfold strlen. lia. }
        simpl_state. rewrite insert_insert_eq.
        do 3 apply returns_bind. unfold malloc_mark, LIST_INSERT_HEAD, modify, returns, ret.
        simpl_state.
        assert (heap st ⊆ <[s:=cstr loc]> (<[ls:=replicate (Z.to_nat SIZEOF_loc_str) Undef]> (heap st))) as Hsub.
        { apply insert_subseteq_r; [done|]. by apply insert_subseteq. }
        split; [|split; [|split]].
        -- unfold registry_ok. simpl_state. constructor.
           ++ simpl. unfold cstring_at. rewrite lookup_insert_eq. simpl.
              rewrite <- (app_nil_r (cstr loc)). apply cstring_of_cstr_is_Some.
           ++ eapply Forall_impl; [exact Hok|]. intros x [t Ht]. exists t.
              unfold cstring_at in *. destruct (heap st !! str x) eqn:E; [|done].
              by erewrite lookup_weaken.
        -- split; simpl_state; try done.
           ++ intros p [x Hp] [->|Hin]%elem_of_cons; [|done]. simpl in Hp. congruence.
           ++ by intros ->.
        -- eauto.
        -- intros Hnul. unfold cstring_at. rewrite lookup_insert_eq. simpl.
           rewrite <- (app_nil_r (cstr loc)). by apply cstring_of_cstr.
Qed.

Lemma extends_alloc st p b :
  heap st !! p = None →
  extends st (State (<[p:=b]> (heap st)) (tail (fails st)) (root st) (inits st)).
Proof.
  intros Hp. split; simpl_state; try done.
  - by apply insert_subseteq.
  - by intros ->.
Qed.

(** A write to a block that [st] does not have keeps [st] extended. *)
Lemma extends_private st st' p b :
  extends st st' → heap st !! p = None →
  extends st (set_heap (<[p:=b]> (heap st')) st').
Proof.
  intros [H1 H2 H3 H4] Hp. split; simpl_state; try done.
  by apply insert_subseteq_r.
Qed.

Lemma extends_private_free st st' p :
  extends st st' → heap st !! p = None →
  extends st (set_heap (delete p (heap st')) st').
Proof.
  intros [H1 H2 H3 H4] Hp. split; simpl_state; try done.
  apply map_subseteq_spec. intros i x Hi.
  rewrite lookup_delete_ne by congruence. by eapply lookup_weaken.
Qed.

Lemma registry_ok_private st p b :
  registry_ok st → p ∉ str <$> root st →
  registry_ok (set_heap (<[p:=b]> (heap st)) st).
Proof.
  intros Hok Hp. eapply registry_ok_agree; [done..|]. simpl_state.
  intros q Hq. apply lookup_insert_ne. congruence.
Qed.

Lemma registry_ok_private_free st p :
  registry_ok st → p ∉ str <$> root st →
  registry_ok (set_heap (delete p (heap st)) st).
Proof.
  intros Hok Hp. eapply registry_ok_agree; [done..|]. simpl_state.
  intros q Hq. apply lookup_delete_ne. congruence.
Qed.

Lemma extends_not_str st st' p :
  extends st st' → is_Some (heap st !! p) → p ∉ str <$> root st →
  p ∉ str <$> root st'.
Proof. intros [_ H _ _] Hp Hn Hin. by apply Hn, H. Qed.

(** [debug_alloc]: a fresh block of [max(size, 1)] cells, or the fatal
    message when the platform allocator returned NULL. *)
Lemma debug_alloc_spec f line size st :
  registry_ok st →
  returns (debug_alloc (Some f) line size) st
    (λ p st',
       p ≠ 0 ∧ heap st !! p = None ∧
       heap st' !! p = Some (replicate (Z.to_nat (max size 1)) Undef) ∧
       registry_ok st' ∧ extends st st' ∧ p ∉ str <$> root st')
    (λ e, e = AllocFailed f line size ∧ fails st ≠ []).
Proof.
  intros Hok. unfold debug_alloc.
  apply returns_bind.
  eapply returns_mono; [by apply debug_caller_loc_spec | | done].
  intros d st1 (Hok1 & Hext1 & _). cbn beta.
  apply returns_bind. unfold malloc_enter at 1, returns at 1, ret at 1.
  apply returns_bind, malloc_returns.
  - intros Hf. rewrite decide_True by done. unfold returns, errordump. simpl.
    split; [done|]. intros E. by apply Hf, Hext1.
  - intros p Hp0 Hp. rewrite decide_False by done.
    set (st2 := State _ _ _ _).
    assert (registry_ok st2) as Hok2.
    { eapply (registry_ok_mono st1); [done | by apply insert_subseteq | done]. }
    assert (extends st1 st2) as Hext2 by by apply extends_alloc.
    apply returns_bind.
    eapply returns_mono; [by apply debug_caller_loc_spec | | done].
    intros d' st3 (Hok3 & Hext3 & _). cbn beta.
    apply returns_bind. unfold malloc_leave, returns, ret.
    assert (heap st2 !! p = Some (replicate (Z.to_nat (max size 1)) Undef)) as Hp2
      by apply lookup_insert_eq.
    split; [done|]. split.
    { eapply lookup_weaken_None; [exact Hp | apply Hext1]. }
    split.
    { eapply lookup_weaken; [exact Hp2 | apply Hext3]. }
    split; [done|]. split.
    { by do 2 (etrans; [eassumption|]). }
    eapply extends_not_str; [exact Hext3 | by eexists |].
    by apply (registry_ok_fresh st1).
Qed.

(** ** Decimal digits hold no terminator *)

Lemma string_of_uint_nul_free u :
  NUL ∉ list_byte_of_string (NilEmpty.string_of_uint u).
Proof.
  induction u; simpl; [apply not_elem_of_nil | ..];
    (apply not_elem_of_cons; split; [done | assumption]).
Qed.

Lemma fmt_d_nul_free n : NUL ∉ fmt_d n.
Proof.
  unfold fmt_d, bs, NilZero.string_of_int, NilZero.string_of_uint.
  destruct (Z.to_int n) as [u|u].
  - destruct u; try apply string_of_uint_nul_free.
    simpl. apply not_elem_of_cons. split; [done | apply not_elem_of_nil].
  - simpl. apply not_elem_of_cons. split; [done|].
    destruct u; try apply string_of_uint_nul_free.
    simpl. apply not_elem_of_cons. split; [done | apply not_elem_of_nil].
Qed.

Lemma strrchr_suffix s c r : strrchr s c = Some r → r `suffix_of` s.
Proof.
  revert r. induction s as [|x s IH]; simpl; intros r; [done|].
  destruct (strrchr s c) as [r'|].
  - intros [= <-]. apply suffix_cons_r. by apply IH.
  - destruct (decide (x = c)); [|done]. by intros [= <-].
Qed.

Lemma elem_of_tail {A} (x : A) l : x ∈ tail l → x ∈ l.
Proof. destruct l; simpl; [done|]. by right. Qed.

Lemma loc_string_nul_free f line : NUL ∉ f → NUL ∉ loc_string f line.
Proof.
  intros Hf. unfold loc_string, snprintf.
  intros Hin%subseteq_take.
  apply elem_of_app in Hin as [Hin|Hin].
  - apply Hf. destruct (strrchr f "/") as [r|] eqn:E; [|done].
    apply elem_of_tail in Hin. eapply elem_of_suffix; [done|].
    by eapply strrchr_suffix.
  - apply elem_of_app in Hin as [Hin|Hin].
    + change (bs "@") with ["@"%byte] in Hin. rewrite elem_of_cons, elem_of_nil in Hin.
      by destruct Hin.
    + by apply fmt_d_nul_free in Hin.
Qed.

Lemma max_spec a b : max a b = Z.max a b.
Proof. unfold max. destruct (Z.ltb_spec a b); lia. Qed.

(** ** Claims about the registry and the allocator *)

(** C9 (as amended).  Two successive calls of [debug_caller_loc] with the
    same file and line: the first returns; when it did not fall back to the
    literal (which happens only when an allocation of the registry failed),
    the second call returns the same descriptor, with the string
    [<basename>@<line>], and leaves the whole state, and so the length of
    the list, as it was. *)
Theorem debug_caller_loc_idempotent f line st :
  registry_ok st → NUL ∉ f →
  ∃ d st1,
    debug_caller_loc (Some f) line st = Ok d st1 ∧
    (d = Unknown → fails st ≠ []) ∧
    (d ≠ Unknown →
     debug_caller_loc (Some f) line st1 = Ok d st1 ∧
     descr_string st1 d = Some (loc_string f line)).
Proof.
  intros Hok Hf.
  destruct (returns_ok _ _ _ (debug_caller_loc_spec f line st Hok))
    as (d & st1 & E & Hok1 & Hext & Hd).
  exists d, st1. split; [done|]. split.
  { intros ->. by destruct Hd. }
  intros Hne. destruct d as [|s]; [done|].
  destruct Hd as [(ls & rest & Hroot & <-) Hs].
  specialize (Hs (loc_string_nul_free f line Hf)).
  split; [|done].
  unfold debug_caller_loc, bind, gets. rewrite Hroot. simpl.
  unfold bind, strcmp_eq. rewrite Hs.
  rewrite bool_decide_eq_true_2 by done. unfold ret.
  by rewrite decide_False by (by intros []).
Qed.

Lemma debug_caller_loc_idempotent_witness :
  ∃ d st1,
    debug_caller_loc (Some (bs "src/f.c")) 12 (init_state []) = Ok d st1 ∧
    (d = Unknown → fails (init_state []) ≠ []) ∧
    (d ≠ Unknown →
     debug_caller_loc (Some (bs "src/f.c")) 12 st1 = Ok d st1 ∧
     descr_string st1 d = Some (loc_string (bs "src/f.c") 12)).
Proof.
  apply (debug_caller_loc_idempotent (bs "src/f.c") 12 (init_state [])).
  - constructor.
  - vm_compute. intros H. by repeat (inversion H as [|? ? ? H']; clear H; rename H' into H).
Defined.

(** C9 as stated fails: when the allocation of the first call fails and
    that of the second succeeds, the first call returns the literal and the
    second a new entry, and the list grows. *)
Lemma debug_caller_loc_not_idempotent :
  ∃ st1 d2 st2,
    registry_ok (init_state [true]) ∧
    debug_caller_loc (Some (bs "f.c")) 1 (init_state [true]) = Ok Unknown st1 ∧
    debug_caller_loc (Some (bs "f.c")) 1 st1 = Ok d2 st2 ∧
    descr_string st1 Unknown = Some (bs "??") ∧
    descr_string st2 d2 = Some (bs "f.c@1") ∧
    descr_string st1 Unknown ≠ descr_string st2 d2 ∧
    length (root st1) = 0%nat ∧ length (root st2) = 1%nat.
Proof.
  eexists _, _, _. split; [constructor|].
  split; [vm_compute; reflexivity|].
  split; [vm_compute; reflexivity|].
  by vm_compute.
Qed.



(** ** Writing consecutive pieces into a block *)

Lemma store_block_app (blk d1 d2 : list memval) (n : nat) :
  (n + length d1 + length d2 ≤ length blk)%nat →
  let blk1 := take n blk ++ d1 ++ drop (n + length d1) blk in
  take (n + length d1) blk1 ++ d2 ++ drop (n + length d1 + length d2) blk1 =
  take n blk ++ (d1 ++ d2) ++ drop (n + length d1 + length d2) blk.
Proof.
  intros Hle blk1. subst blk1.
  assert (length (take n blk ++ d1) = (n + length d1)%nat) as Hlen.
  { rewrite length_app, length_take. lia. }
  rewrite (app_assoc (take n blk) d1).
  rewrite take_app_length' by done.
  rewrite drop_app_add' by done.
  rewrite drop_drop. by rewrite <- !app_assoc.
Qed.

Lemma set_heap_id st : set_heap (heap st) st = st.
Proof. by destruct st. Qed.

Lemma set_heap_set_heap h h' st : set_heap h (set_heap h' st) = set_heap h st.
Proof. done. Qed.

Lemma take_cstr s : take (Z.to_nat (strlen s)) (Char <$> (s ++ [NUL])) = Char <$> s.
Proof.
  unfold strlen. rewrite Nat2Z.id, fmap_app, take_app_length'; [done|].
  by rewrite length_fmap.
Qed.

Lemma total_length_app l1 l2 :
  total_length (l1 ++ l2) = total_length l1 + total_length l2.
Proof. unfold total_length. induction l1; simpl; lia. Qed.

Lemma total_length_concat l : total_length l = strlen (concat l).
Proof.
  unfold total_length, strlen. induction l as [|s l IH]; simpl; [done|].
  rewrite length_app. lia.
Qed.

Lemma total_length_nonneg l : 0 ≤ total_length l.
Proof. rewrite total_length_concat. unfold strlen. lia. Qed.

Lemma nonempty_args_concat argp : concat (nonempty_args argp) = concat argp.
Proof.
  unfold nonempty_args. induction argp as [|s argp IH]; simpl; [done|].
  destruct s as [|b s].
  - rewrite filter_cons_False by (by intros []). done.
  - rewrite filter_cons_True by done. simpl. by rewrite IH.
Qed.

(** ** internal_vstralloc *)

(** The scan keeps the arguments that are not empty, as long as there is
    room for them, and adds their lengths up. *)
Lemma vstralloc_scan_spec file line argp : ∀ a arg total st,
  a ≤ MAX_VSTRALLOC_ARGS → 0 ≤ total < SIZE_T_MOD →
  vstralloc_scan file line argp a arg total st =
  if decide (a + Z.of_nat (length (nonempty_args argp)) ≤ MAX_VSTRALLOC_ARGS)
  then Ok (a + Z.of_nat (length (nonempty_args argp)),
           arg ++ nonempty_args argp,
           to_size_t (total + total_length argp)) st
  else Fatal (TooManyArgs (default (bs "(unknown)") file)
                          (if non_null file then line else -1)
                          MAX_VSTRALLOC_ARGS).
Proof.
  unfold nonempty_args.
  induction argp as [|next argp IH]; intros a arg total st Ha Ht; simpl.
  - rewrite decide_True by lia. unfold ret, to_size_t.
    rewrite app_nil_r, Z.add_0_r, Z.add_0_r, Z.mod_small by done. done.
  - destruct (decide (strlen next = 0)) as [E|E].
    + assert (next = []) as -> by (by destruct next).
      rewrite filter_cons_False by (by intros []).
      rewrite IH by done. simpl. by rewrite Z.add_0_l.
    + assert (next ≠ []) as Hne by (by intros ->).
      rewrite filter_cons_True by done. simpl length.
      destruct (decide (MAX_VSTRALLOC_ARGS ≤ a)).
      * rewrite decide_False by lia. done.
      * rewrite IH.
        2:{ lia. }
        2:{ unfold size_add, to_size_t. apply Z.mod_pos_bound. done. }
        destruct (decide (a + 1 + _ ≤ _)).
        -- rewrite decide_True by lia. f_equal. f_equal; [f_equal|].
           ++ lia.
           ++ by rewrite <- app_assoc.
           ++ unfold size_add, to_size_t. rewrite Z.add_mod_idemp_l by done.
              f_equal. lia.
        -- rewrite decide_False by lia. done.
Qed.

(** The copy loop writes the arguments one after the other from [next]. *)
Lemma vstralloc_copy_spec result arg : ∀ next st blk,
  heap st !! result = Some blk →
  0 ≤ next → next + total_length arg ≤ Z.of_nat (length blk) →
  vstralloc_copy result next arg st =
  Ok (next + total_length arg)
     (set_heap (<[result := take (Z.to_nat next) blk ++ (Char <$> concat arg) ++
                            drop (Z.to_nat (next + total_length arg)) blk]>
                  (heap st)) st).
Proof.
  induction arg as [|s arg IH]; intros next st blk Hblk H0 Hle; simpl.
  - unfold ret. rewrite Z.add_0_r, take_drop, insert_id, set_heap_id by done. done.
  - pose proof (total_length_nonneg arg) as Hnn.
    change (total_length (s :: arg)) with (strlen s + total_length arg) in *.
    unfold bind, memcpy_str, store. rewrite Hblk, take_cstr, length_fmap.
    fold (strlen s). rewrite decide_True by (unfold strlen in *; lia).
    erewrite IH; simpl_state.
    2:{ apply lookup_insert_eq. }
    2:{ unfold strlen; lia. }
    2:{ rewrite !length_app, length_take, length_fmap, length_drop.
        unfold strlen in *. lia. }
    rewrite insert_insert_eq, set_heap_set_heap. f_equal; [lia|]. f_equal. f_equal.
    pose proof (store_block_app blk (Char <$> s) (Char <$> concat arg) (Z.to_nat next)) as Hs.
    rewrite !length_fmap in Hs. cbn zeta in Hs.
    rewrite fmap_app.
    replace (Z.to_nat (next + strlen s)) with (Z.to_nat next + length s)%nat
      by (unfold strlen; lia).
    replace (Z.to_nat (next + strlen s + total_length arg))
      with (Z.to_nat next + length s + length (concat arg))%nat
      by (rewrite total_length_concat; unfold strlen; lia).
    replace (Z.to_nat (next + (strlen s + total_length arg)))
      with (Z.to_nat next + length s + length (concat arg))%nat
      by (rewrite total_length_concat; unfold strlen; lia).
    apply Hs. rewrite total_length_concat in Hle. unfold strlen in Hle. lia.
Qed.

Lemma fill_block (c : list memval) (x : memval) :
  let rep := replicate (S (length c)) Undef in
  let b1 := take 0 rep ++ c ++ drop (0 + length c) rep in
  take (length c) b1 ++ [x] ++ drop (length c + 1) b1 = c ++ [x].
Proof.
  intros rep b1. subst rep b1. rewrite take_0. simpl app.
  rewrite take_app_length, drop_app_add' by done.
  rewrite drop_drop, drop_ge; [done|].
  simpl. rewrite length_replicate. lia.
Qed.

Lemma internal_vstralloc_spec f line s argp st :
  registry_ok st →
  strlen s + total_length argp + 1 < SIZE_T_MOD →
  returns (internal_vstralloc (Some f) line (Some s) argp) st
    (λ p st',
       1 + Z.of_nat (length (nonempty_args argp)) ≤ MAX_VSTRALLOC_ARGS ∧
       p ≠ 0 ∧ heap st !! p = None ∧
       heap st' !! p = Some (cstr (s ++ concat argp)) ∧
       registry_ok st' ∧ extends st st' ∧ p ∉ str <$> root st')
    (λ e,
       (e = TooManyArgs f line MAX_VSTRALLOC_ARGS ∧
        MAX_VSTRALLOC_ARGS < 1 + Z.of_nat (length (nonempty_args argp))) ∨
       (e = AllocFailed f line (strlen s + total_length argp + 1) ∧
        fails st ≠ [] ∧
        1 + Z.of_nat (length (nonempty_args argp)) ≤ MAX_VSTRALLOC_ARGS)).
Proof.
  intros Hok Hsz. pose proof (total_length_nonneg argp) as Hnn.
  assert (0 ≤ strlen s) as Hs0 by (unfold strlen; lia).
  unfold internal_vstralloc. apply returns_bind. unfold returns at 1.
  rewrite vstralloc_scan_spec by (done || lia).
  destruct (decide _) as [Hle|Hgt]; [|left; split; [done | lia]].
  unfold to_size_t. rewrite Z.mod_small by lia.
  unfold size_add, to_size_t. rewrite Z.mod_small by lia.
  set (T := strlen s + total_length argp) in *.
  apply returns_bind.
  eapply returns_mono; [by apply debug_alloc_spec | | ].
  2:{ intros e [-> Hf]. right. done. }
  intros p st1 (Hp0 & Hfresh & Hp1 & Hok1 & Hext1 & Hstr1). cbn beta.
  assert (total_length ([s] ++ nonempty_args argp) = T) as Htl.
  { rewrite total_length_app, !total_length_concat, nonempty_args_concat.
    subst T. rewrite total_length_concat. simpl. rewrite app_nil_r. lia. }
  assert (Z.to_nat (max (T + 1) 1) = S (Z.to_nat T)) as Hmax.
  { rewrite max_spec. lia. }
  rewrite Hmax in Hp1.
  assert (length (concat ([s] ++ nonempty_args argp)) = Z.to_nat T) as Hlen.
  { rewrite <- Htl, total_length_concat. unfold strlen. lia. }
  apply returns_bind. eapply returns_step.
  { apply vstralloc_copy_spec; [exact Hp1 | done |].
    rewrite length_replicate, Htl. lia. }
  apply returns_bind. eapply store_returns.
  { simpl_state. apply lookup_insert_eq. }
  { lia. }
  { rewrite !length_app, length_take, length_fmap, length_drop, length_replicate.
    rewrite Htl, Hlen. simpl. lia. }
  simpl_state. rewrite insert_insert_eq, set_heap_set_heap, Htl.
  set (c := Char <$> concat ([s] ++ nonempty_args argp)).
  assert (length c = Z.to_nat T) as Hc by (subst c; by rewrite length_fmap).
  replace (Z.to_nat (0 + T)) with (length c) by lia.
  rewrite <- Hc. change (Z.to_nat 0) with 0%nat. change (length [Char NUL]) with 1%nat.
  pose proof (fill_block c (Char NUL)) as Hfb. cbn zeta in Hfb.
  change (0 + length c)%nat with (length c) in Hfb. rewrite Hfb. clear Hfb.
  assert (c ++ [Char NUL] = cstr (s ++ concat argp)) as ->.
  { subst c. unfold cstr. rewrite (fmap_app _ (s ++ _)). f_equal. f_equal.
    simpl. by rewrite nonempty_args_concat. }
  unfold returns, ret.
  split; [done|]. split; [done|]. split; [done|].
  split; [simpl_state; by rewrite lookup_insert_eq|].
  split; [by apply registry_ok_private|].
  split; [by apply extends_private | done].
Qed.

(** ** Claims about the string builder *)



(** The examples of the spec: ["ab"], ["cd"], ["ef"] give ["abcdef"], and
    three empty strings give the empty string. *)
Example concat_ab_cd_ef :
  ∃ p st', debug_vstralloc (Some (bs "f.c")) 1 (Some (bs "ab")) [bs "cd"; bs "ef"]
             (init_state []) = Ok p st' ∧
           cstring_at (heap st') p = Some (bs "abcdef") ∧
           heap st' !! p = Some (cstr (bs "abcdef")).
Proof. eexists _, _. split; [by vm_compute|]. by vm_compute. Qed.

Example concat_empty :
  ∃ p st', debug_vstralloc (Some (bs "f.c")) 1 (Some (bs "")) [bs ""; bs ""]
             (init_state []) = Ok p st' ∧
           heap st' !! p = Some [Char NUL].
Proof. eexists _, _. split; [by vm_compute|]. by vm_compute. Qed.




(** ** debug_vstrallocf *)

Lemma length_snprintf size out :
  0 < size → Z.of_nat (length (snprintf size out)) = Z.min (size - 1) (strlen out).
Proof. intros H. unfold snprintf, strlen. rewrite length_take. lia. Qed.

Lemma vsnprintf_returns render p size fmt argp st blk (Q : Z → state → Prop) F :
  heap st !! p = Some blk → 0 < size → size ≤ Z.of_nat (length blk) →
  Q (if decide (strlen (render fmt argp) ≤ INT_MAX) then strlen (render fmt argp) else -1)
    (set_heap (<[p := cstr (snprintf size (render fmt argp)) ++
                      drop (S (length (snprintf size (render fmt argp)))) blk]>
                 (heap st)) st) →
  returns (vsnprintf render p size fmt argp) st Q F.
Proof.
  intros Hp Hsz Hlen HQ. unfold vsnprintf.
  pose proof (length_snprintf size (render fmt argp) Hsz) as Hl.
  apply returns_bind. rewrite decide_False by lia.
  fold (cstr (snprintf size (render fmt argp))).
  eapply store_returns; [done | done | rewrite length_cstr; lia |].
  unfold returns, ret. change (Z.to_nat 0) with 0%nat. rewrite take_0, length_cstr.
  exact HQ.
Qed.

Lemma debug_vstrallocf_spec render f line fmt argp st :
  registry_ok st → strlen (render fmt argp) ≤ INT_MAX →
  returns (debug_vstrallocf render (Some f) line fmt argp) st
    (λ p st',
       p ≠ 0 ∧ extends st st' ∧ registry_ok st' ∧ heap st !! p = None ∧
       heap st' !! p =
         Some (cstr (render fmt argp) ++
               replicate (Z.to_nat (MIN_ALLOC - 1 - strlen (render fmt argp))) Undef))
    (λ e, (e = AllocFailed f line MIN_ALLOC ∨
           e = AllocFailed f line (strlen (render fmt argp) + 1)) ∧ fails st ≠ []).
Proof.
  intros Hok Hint. set (out := render fmt argp) in *.
  assert (0 ≤ strlen out) as Hn0 by (unfold strlen; lia).
  unfold debug_vstrallocf.
  apply returns_bind.
  eapply returns_mono; [by apply debug_caller_loc_spec | | done].
  intros d st1 (Hok1 & Hext1 & _). cbn beta.
  apply returns_bind. unfold malloc_enter at 1, returns at 1, ret at 1.
  apply returns_bind.
  eapply returns_mono; [by apply debug_alloc_spec | | ].
  2:{ intros e [-> Hf]. split; [by left|]. intros E. by apply Hf, Hext1. }
  intros p st2 (Hp0 & Hfresh1 & Hp2 & Hok2 & Hext2 & Hstr2). cbn beta.
  assert (heap st !! p = None) as Hfresh.
  { eapply lookup_weaken_None; [exact Hfresh1 | apply Hext1]. }
  assert (extends st st2) as Hext02 by (by etrans).
  change (Z.to_nat (max MIN_ALLOC 1)) with 64%nat in Hp2.
  apply returns_bind. rewrite decide_True by done.
  apply returns_bind. eapply vsnprintf_returns; [exact Hp2 | reflexivity | by vm_compute |].
  fold out. rewrite !(decide_True (P := strlen out ≤ INT_MAX)) by done.
  unfold to_size_t. rewrite (Z.mod_small (strlen out)) by (change INT_MAX with 2147483647 in Hint; change SIZE_T_MOD with 18446744073709551616; lia).
  change (MIN_ALLOC `mod` SIZE_T_MOD) with 64.
  set (st3 := set_heap _ st2).
  assert (registry_ok st3) as Hok3 by (by apply registry_ok_private).
  assert (extends st st3) as Hext3 by (by apply extends_private).
  destruct (decide (64 ≤ strlen out)) as [Hbig|Hsmall].
  - (* the rendering does not fit: release, allocate again, render again *)
    apply returns_bind. unfold debug_amfree. rewrite decide_False by done.
    eapply free_returns; [apply lookup_insert_eq | | done].
    intros _. set (st4 := set_heap _ st3).
    assert (registry_ok st4) as Hok4 by (by apply registry_ok_private_free).
    assert (extends st st4) as Hext4 by (by apply extends_private_free).
    unfold size_add, to_size_t.
    rewrite Z.mod_small by (change INT_MAX with 2147483647 in Hint; change SIZE_T_MOD with 18446744073709551616; lia).
    apply returns_bind.
    eapply returns_mono; [by apply debug_alloc_spec | | ].
    2:{ intros e [-> Hf]. split; [by right|]. intros E. by apply Hf, Hext4. }
    intros p' st5 (Hp0' & Hfresh4 & Hp5 & Hok5 & Hext5 & Hstr5). cbn beta.
    assert (Z.to_nat (max (strlen out + 1) 1) = S (length out)) as Hmax.
    { rewrite max_spec. unfold strlen. lia. }
    rewrite Hmax in Hp5.
    assert (heap st !! p' = None) as Hfresh'.
    { eapply lookup_weaken_None; [exact Hfresh4 | apply Hext4]. }
    apply returns_bind.
    eapply vsnprintf_returns; [exact Hp5 | lia | rewrite length_replicate; unfold strlen; lia |].
    fold out. set (st6 := set_heap _ st5).
    assert (registry_ok st6) as Hok6 by (by apply registry_ok_private).
    assert (extends st st6) as Hext6.
    { apply extends_private; [by etrans | done]. }
    assert (heap st6 !! p' = Some (cstr out)) as Hp6.
    { subst st6. simpl_state. rewrite lookup_insert_eq. f_equal.
      unfold snprintf. rewrite take_ge by (unfold strlen; lia).
      rewrite drop_ge by (rewrite length_replicate; lia). apply app_nil_r. }
    unfold returns at 1, ret at 1.
    apply returns_bind.
    eapply returns_mono; [by apply debug_caller_loc_spec | | done].
    intros d' st7 (Hok7 & Hext7 & _). cbn beta.
    apply returns_bind. unfold malloc_leave, returns, ret.
    split; [done|]. split; [by etrans|]. split; [done|]. split; [done|].
    replace (Z.to_nat (MIN_ALLOC - 1 - strlen out)) with 0%nat
      by (change MIN_ALLOC with 64; lia).
    simpl. rewrite app_nil_r.
    eapply lookup_weaken; [exact Hp6 | apply Hext7].
  - (* the rendering fits the first buffer *)
    assert (heap st3 !! p =
            Some (cstr out ++ replicate (Z.to_nat (MIN_ALLOC - 1 - strlen out)) Undef)) as Hp3.
    { subst st3. simpl_state. rewrite lookup_insert_eq. f_equal.
      unfold snprintf. change MIN_ALLOC with 64.
      rewrite take_ge by (unfold strlen in *; lia).
      rewrite drop_replicate. do 2 f_equal. unfold strlen. lia. }
    unfold returns at 1, ret at 1.
    apply returns_bind.
    eapply returns_mono; [by apply debug_caller_loc_spec | | done].
    intros d' st7 (Hok7 & Hext7 & _). cbn beta.
    apply returns_bind. unfold malloc_leave, returns, ret.
    split; [done|]. split; [by etrans|]. split; [done|]. split; [done|].
    eapply lookup_weaken; [exact Hp3 | apply Hext7].
Qed.

(** C1 (as amended).  The block that [debug_vstrallocf] returns starts with
    the rendering and one terminator, and its allocated size is
    [max(64, length + 1)]: the rendered length plus one when the rendering
    has 63 bytes or more, and the 64 bytes of the first buffer, kept as it
    is, when the rendering is shorter. *)
Theorem debug_vstrallocf_size render f line fmt argp st :
  registry_ok st → strlen (render fmt argp) ≤ INT_MAX →
  match debug_vstrallocf render (Some f) line fmt argp st with
  | Ok p st' =>
      p ≠ 0 ∧
      ∃ blk, heap st' !! p = Some blk ∧
             take (S (length (render fmt argp))) blk = cstr (render fmt argp) ∧
             Z.of_nat (length blk) = Z.max MIN_ALLOC (strlen (render fmt argp) + 1)
  | Fatal e =>
      (e = AllocFailed f line MIN_ALLOC ∨
       e = AllocFailed f line (strlen (render fmt argp) + 1)) ∧ fails st ≠ []
  | Undefined => False
  end.
Proof.
  intros Hok Hint.
  pose proof (debug_vstrallocf_spec render f line fmt argp st Hok Hint) as H.
  unfold returns in H.
  destruct (debug_vstrallocf render (Some f) line fmt argp st) as [p st'|e|]; [|done..].
  destruct H as (Hp0 & _ & _ & _ & Hp). split; [done|].
  eexists. split; [exact Hp|]. split.
  - rewrite <- (length_cstr (render fmt argp)). by rewrite take_app_length.
  - rewrite length_app, length_cstr, length_replicate.
    unfold strlen. change MIN_ALLOC with 64. lia.
Qed.

Lemma debug_vstrallocf_size_witness :
  match debug_vstrallocf render_simple (Some (bs "f.c")) 1 (bs "%d-%s")
          [ArgInt 42; ArgStr (bs "x")] (init_state []) with
  | Ok p st' =>
      p ≠ 0 ∧
      ∃ blk, heap st' !! p = Some blk ∧
             take (S (length (render_simple (bs "%d-%s") [ArgInt 42; ArgStr (bs "x")]))) blk =
               cstr (render_simple (bs "%d-%s") [ArgInt 42; ArgStr (bs "x")]) ∧
             Z.of_nat (length blk) =
               Z.max MIN_ALLOC
                 (strlen (render_simple (bs "%d-%s") [ArgInt 42; ArgStr (bs "x")]) + 1)
  | Fatal e =>
      (e = AllocFailed (bs "f.c") 1 MIN_ALLOC ∨
       e = AllocFailed (bs "f.c") 1
             (strlen (render_simple (bs "%d-%s") [ArgInt 42; ArgStr (bs "x")]) + 1)) ∧
      fails (init_state []) ≠ []
  | Undefined => False
  end.
Proof.
  apply (debug_vstrallocf_size render_simple (bs "f.c") 1 (bs "%d-%s")
           [ArgInt 42; ArgStr (bs "x")] (init_state [])).
  - constructor.
  - vm_compute. discriminate.
Defined.

(** C1 as stated fails for a short rendering: ["%d-%s"] with 42 and ["x"]
    renders the four bytes ["42-x"], and the block returned has 64 bytes,
    not five. *)
Lemma debug_vstrallocf_short_keeps_min_alloc :
  ∃ p st' blk,
    render_simple (bs "%d-%s") [ArgInt 42; ArgStr (bs "x")] = bs "42-x" ∧
    debug_vstrallocf render_simple (Some (bs "f.c")) 1 (bs "%d-%s")
      [ArgInt 42; ArgStr (bs "x")] (init_state []) = Ok p st' ∧
    heap st' !! p = Some blk ∧
    cstring_of blk = Some (bs "42-x") ∧
    length blk = 64%nat ∧
    Z.of_nat (length blk) ≠ strlen (bs "42-x") + 1.
Proof.
  eexists _, _, _. split; [reflexivity|].
  split; [by vm_compute|]. split; [by vm_compute|]. by vm_compute.
Qed.

(** For a long rendering the block is exactly as long as needed. *)
Example debug_vstrallocf_long :
  ∃ p st' blk,
    debug_vstrallocf render_simple (Some (bs "f.c")) 1 (bs "%s%s")
      [ArgStr (replicate 40 "a"%byte); ArgStr (replicate 40 "b"%byte)]
      (init_state []) = Ok p st' ∧
    heap st' !! p = Some blk ∧ length blk = 81%nat.
Proof. eexists _, _, _. split; [by vm_compute|]. split; by vm_compute. Qed.

(** ** debug_amtable_alloc *)

Lemma length_zeros n : 0 ≤ n → Z.of_nat (length (zeros n)) = n.
Proof. intros H. unfold zeros. rewrite length_replicate. lia. Qed.

Lemma init_calls_S table elsize i n :
  init_calls table elsize i (S n) =
  (table, i * elsize) :: init_calls table elsize (i + 1) n.
Proof.
  unfold init_calls. simpl. rewrite Z.add_0_r. f_equal.
  rewrite <- fmap_S_seq, <- list_fmap_compose. apply list_fmap_ext.
  intros _ k _. simpl. f_equal. lia.
Qed.

(** The loop over the new elements: each is handed once to the
    initializer, which finds it zeroed, in ascending order. *)
Lemma amtable_init_spec f table elsize :
  0 < elsize → (∀ e, length (f e) = length e) →
  ∀ n i st pre,
    0 ≤ i → (i + Z.of_nat n) * elsize < SIZE_T_MOD →
    Z.of_nat (length pre) = i * elsize →
    heap st !! table = Some (pre ++ concat (replicate n (zeros elsize))) →
    amtable_init f table elsize i n st =
    Ok tt (State (<[table := pre ++ concat (replicate n (f (zeros elsize)))]> (heap st))
                 (fails st) (root st)
                 (inits st ++ init_calls table elsize i n)).
Proof.
  intros Hes Hf. induction n as [|n IH]; intros i st pre Hi Hfit Hpre Hblk.
  - simpl in *. unfold ret, init_calls. simpl. rewrite app_nil_r in Hblk.
    rewrite !app_nil_r, insert_id by done. by destruct st.
  - simpl. rewrite init_calls_S.
    assert (size_mul i elsize = i * elsize) as ->.
    { unfold size_mul, to_size_t. apply Z.mod_small. nia. }
    assert (size_add i 1 = i + 1) as ->.
    { unfold size_add, to_size_t. apply Z.mod_small. nia. }
    pose proof (length_zeros elsize ltac:(lia)) as Hz.
    assert (0 ≤ i * elsize) as Hie by nia.
    simpl in Hblk.
    unfold bind at 1, call_init, bind at 1, load. rewrite Hblk.
    rewrite decide_True.
    2:{ rewrite !length_app. lia. }
    replace (Z.to_nat (i * elsize)) with (length pre) by lia.
    rewrite drop_app_length.
    replace (Z.to_nat elsize) with (length (zeros elsize)) at 1 by lia.
    rewrite take_app_length.
    unfold bind at 1, store. rewrite Hblk.
    rewrite decide_True.
    2:{ rewrite !length_app, Hf. lia. }
    unfold modify. simpl_state.
    replace (Z.to_nat (i * elsize)) with (length pre) by lia.
    rewrite take_app_length, Hf, <- drop_drop, drop_app_length, drop_app_length.
    rewrite (IH (i + 1) _ (pre ++ f (zeros elsize))); simpl_state.
    + rewrite insert_insert_eq. f_equal. f_equal.
      * by rewrite <- app_assoc.
      * by rewrite <- app_assoc.
    + lia.
    + lia.
    + rewrite length_app, Hf. lia.
    + rewrite lookup_insert_eq. by rewrite <- app_assoc.
Qed.

Lemma grown_capacity_gt count bump :
  0 < bump → count < grown_capacity count bump ∧ grown_capacity count bump ≤ count + bump.
Proof.
  intros Hb. unfold grown_capacity.
  pose proof (Z.div_mod count bump ltac:(lia)) as Hdm.
  pose proof (Z.mod_pos_bound count bump Hb). nia.
Qed.

Lemma concat_replicate_zeros n elsize :
  0 ≤ elsize →
  concat (replicate n (zeros elsize)) = zeros (Z.of_nat n * elsize).
Proof.
  intros He. unfold zeros. induction n as [|n IH].
  - done.
  - cbn [replicate concat]. rewrite IH, <- replicate_add. f_equal. lia.
Qed.

Lemma debug_amtable_alloc_spec f line table current elsize count bump init_func old st :
  registry_ok st →
  table_ok st table current elsize old →
  0 ≤ current ≤ count → 0 < elsize → 0 < bump →
  count + bump < SIZE_T_MOD →
  grown_capacity count bump * elsize < SIZE_T_MOD →
  init_ok init_func →
  returns (debug_amtable_alloc (Some f) line table current elsize count bump init_func) st
    (λ r st',
       ∃ table',
         r = (0, table', grown_capacity count bump) ∧ table' ≠ 0 ∧
         heap st' !! table' =
           Some (take (Z.to_nat (current * elsize)) old ++
                 concat (replicate (Z.to_nat (grown_capacity count bump - current))
                           (new_element init_func elsize))) ∧
         inits st' =
           inits st ++
           match init_func with
           | Some _ => init_calls table' elsize current
                         (Z.to_nat (grown_capacity count bump - current))
           | None => []
           end ∧
         (table ≠ 0 → heap st' !! table = None) ∧
         registry_ok st' ∧
         (table' ∉ str <$> root st') ∧ heap st !! table' = None ∧
         (∀ q b, q ≠ table → heap st !! q = Some b → heap st' !! q = Some b) ∧
         (fails st = [] → fails st' = []))
    (λ e, e = AllocFailed f line (grown_capacity count bump * elsize) ∧ fails st ≠ []).
Proof.
  intros Hok Htab Hcur Hes Hbump Hcb Hfit Hinit.
  destruct (grown_capacity_gt count bump Hbump) as [Hgt Hle].
  set (N := grown_capacity count bump) in *.
  assert (0 ≤ current * elsize ≤ N * elsize) as Hce by nia.
  unfold debug_amtable_alloc. rewrite decide_True by lia.
  assert (to_size_t bump = bump) as ->.
  { unfold to_size_t. apply Z.mod_small. lia. }
  rewrite decide_False by lia.
  assert (size_mul (size_add count bump / bump) bump = N) as ->.
  { unfold size_add, size_mul, to_size_t. rewrite (Z.mod_small (count + bump)) by lia.
    replace (count + bump) with (count + 1 * bump) by lia.
    rewrite Z.div_add by lia. fold (grown_capacity count bump). fold N.
    apply Z.mod_small. nia. }
  assert (size_mul N elsize = N * elsize) as ->.
  { unfold size_mul, to_size_t. apply Z.mod_small. nia. }
  assert (size_mul current elsize = current * elsize) as ->.
  { unfold size_mul, to_size_t. apply Z.mod_small. nia. }
  assert (size_mul (size_sub N current) elsize = (N - current) * elsize) as ->.
  { unfold size_mul, size_sub, to_size_t. rewrite (Z.mod_small (N - current)) by nia.
    apply Z.mod_small. nia. }
  apply returns_bind.
  eapply returns_mono; [by apply debug_alloc_spec | | done].
  intros tn st1 (Htn0 & Hfresh & Htn1 & Hok1 & Hext1 & Hstr1). cbn beta.
  assert (Z.to_nat (max (N * elsize) 1) = Z.to_nat (N * elsize)) as Hmax.
  { rewrite max_spec. nia. }
  rewrite Hmax in Htn1.
  set (pre := take (Z.to_nat (current * elsize)) old).
  assert (returns
            (if decide (0 ≠ table)
             then do* memcpy tn 0 table 0 (current * elsize) in free table
             else ret ()) st1
            (λ _ st2,
               heap st2 !! tn =
                 Some (pre ++ replicate (Z.to_nat (N * elsize - current * elsize)) Undef) ∧
               Z.of_nat (length pre) = current * elsize ∧
               registry_ok st2 ∧ inits st2 = inits st ∧
               (table ≠ 0 → heap st2 !! table = None) ∧
               (tn ∉ str <$> root st2) ∧
               (∀ q b, q ≠ table → heap st !! q = Some b → heap st2 !! q = Some b) ∧
               (fails st = [] → fails st2 = []))
            (λ e, e = AllocFailed f line (N * elsize) ∧ fails st ≠ [])) as Hstep.
  { unfold table_ok in Htab. destruct (decide (table = 0)) as [->|Hne].
    - destruct Htab as [-> ->]. rewrite decide_False by (intros H; by apply H).
      unfold returns, ret. subst pre. simpl. rewrite Z.sub_0_r.
      split; [done|]. split; [done|]. split; [done|].
      split; [apply Hext1|]. split; [done|]. split; [done|]. split; [|apply Hext1].
      intros q b _ Hq. eapply lookup_weaken; [exact Hq | apply Hext1].
    - destruct Htab as (Hold & Hlen & Hnstr). rewrite decide_True by (intros H; by apply Hne).
      assert (heap st1 !! table = Some old) as Hold1.
      { eapply lookup_weaken; [exact Hold | apply Hext1]. }
      assert (tn ≠ table) as Hneq by congruence.
      assert (table ∉ str <$> root st1) as Hnstr1.
      { eapply extends_not_str; [exact Hext1 | by eexists | done]. }
      assert (length pre = Z.to_nat (current * elsize)) as Hpre.
      { subst pre. rewrite length_take. lia. }
      apply returns_bind. unfold memcpy. apply returns_bind.
      eapply load_returns; [exact Hold1 | lia | lia | lia |].
      change (Z.to_nat 0) with 0%nat. rewrite drop_0. fold pre.
      eapply store_returns; [exact Htn1 | lia | rewrite length_replicate; lia |].
      change (Z.to_nat 0) with 0%nat. rewrite take_0, drop_replicate. simpl app.
      eapply free_returns.
      { simpl_state. rewrite lookup_insert_ne by done. exact Hold1. }
      2:{ done. }
      intros _. unfold returns, ret. simpl_state.
      split.
      { rewrite lookup_delete_ne, lookup_insert_eq by done. do 3 f_equal. lia. }
      split; [lia|]. split.
      { apply (registry_ok_private_free (set_heap _ st1)); [|done].
        by apply registry_ok_private. }
      split; [apply Hext1|]. split; [intros _; apply lookup_delete_eq|].
      split; [done|]. split; [|apply Hext1].
      intros q b Hq Hb. rewrite lookup_delete_ne by done.
      rewrite lookup_insert_ne by congruence.
      eapply lookup_weaken; [exact Hb | apply Hext1]. }
  apply returns_bind. eapply returns_mono; [exact Hstep | | done].
  clear Hstep. intros _ st2 (Htn2 & Hpre & Hok2 & Hin2 & Hrel2 & Hstr2 & Hframe2 & Hfl2).
  cbn beta.
  set (n := Z.to_nat (N - current)).
  pose proof (length_zeros ((N - current) * elsize) ltac:(nia)) as Hz.
  apply returns_bind. unfold memset. fold (zeros ((N - current) * elsize)).
  eapply store_returns; [exact Htn2 | lia | |].
  { rewrite length_app, length_replicate. lia. }
  replace (Z.to_nat (current * elsize)) with (length pre) by lia.
  rewrite take_app_length.
  rewrite drop_app_add', drop_ge by (done || rewrite length_replicate; lia).
  rewrite app_nil_r.
  replace (zeros ((N - current) * elsize)) with (concat (replicate n (zeros elsize))).
  2:{ rewrite concat_replicate_zeros by lia. f_equal. subst n. lia. }
  set (st3 := set_heap _ st2).
  assert (heap st3 !! tn = Some (pre ++ concat (replicate n (zeros elsize)))) as Htn3.
  { subst st3. simpl_state. apply lookup_insert_eq. }
  assert (table ≠ 0 → heap st3 !! table = None) as Hrel3.
  { intros Hne. subst st3. simpl_state.
    destruct (decide (table = tn)) as [->|Hd].
    - specialize (Hrel2 Hne). congruence.
    - rewrite lookup_insert_ne by done. auto. }
  assert (registry_ok st3) as Hok3 by (by apply registry_ok_private).
  unfold returns at 1, ret at 1.
  apply returns_bind.
  destruct init_func as [g|]; simpl in Hinit |- *.
  - eapply returns_step.
    { apply (amtable_init_spec g tn elsize Hes Hinit n current st3 pre);
        [lia | subst n; nia | done | done]. }
    unfold returns, ret. simpl_state. exists tn.
    split; [done|]. split; [done|].
    split; [apply lookup_insert_eq|].
    split; [subst st3; simpl_state; by rewrite Hin2|].
    split.
    { intros Hne. destruct (decide (table = tn)) as [->|Hd].
      - specialize (Hrel2 Hne). congruence.
      - rewrite lookup_insert_ne by done. auto. }
    split.
    { eapply (registry_ok_agree st3); [done | done |]. simpl_state.
      intros q Hq. apply lookup_insert_ne. by intros ->. }
    split; [done|]. split; [done|]. split; [|done].
    intros q b Hq Hb. rewrite lookup_insert_ne by congruence.
    subst st3. simpl_state. rewrite lookup_insert_ne by congruence. by apply Hframe2.
  - unfold returns, ret. exists tn.
    split; [done|]. split; [done|]. split; [done|].
    split; [by rewrite app_nil_r|]. split; [done|]. split; [done|].
    split; [done|]. split; [done|]. split; [|done].
    intros q b Hq Hb. subst st3. simpl_state.
    rewrite lookup_insert_ne by congruence. by apply Hframe2.
Qed.

Lemma grown_capacity_least count bump m :
  0 < bump → (bump | m) → count < m → grown_capacity count bump ≤ m.
Proof.
  intros Hb [k ->] Hlt. unfold grown_capacity.
  assert (count / bump < k) by (apply Z.div_lt_upper_bound; lia). nia.
Qed.

Lemma grown_capacity_multiple count bump : (bump | grown_capacity count bump).
Proof. unfold grown_capacity. by eexists. Qed.

Lemma length_concat_replicate {A} n (x : list A) :
  length (concat (replicate n x)) = (n * length x)%nat.
Proof.
  induction n as [|n IH]; [done|]. cbn [replicate concat].
  rewrite length_app, IH. lia.
Qed.

Lemma length_new_element init_func elsize :
  0 ≤ elsize → init_ok init_func →
  length (new_element init_func elsize) = Z.to_nat elsize.
Proof.
  intros He Hi. pose proof (length_zeros elsize He) as Hz.
  destruct init_func as [g|]; simpl in *; [rewrite Hi|]; lia.
Qed.

(** The block of a table after a growth, and its length. *)
Lemma length_grown_block init_func elsize current N (old : list memval) :
  0 < elsize → init_ok init_func → 0 ≤ current ≤ N →
  current * elsize ≤ Z.of_nat (length old) →
  Z.of_nat (length (take (Z.to_nat (current * elsize)) old ++
                    concat (replicate (Z.to_nat (N - current))
                              (new_element init_func elsize)))) = N * elsize.
Proof.
  intros He Hi Hc Hold.
  rewrite length_app, length_take, length_concat_replicate, length_new_element
    by (done || lia).
  nia.
Qed.

Lemma table_ok_length st table current elsize old :
  table_ok st table current elsize old → 0 < elsize →
  current * elsize ≤ Z.of_nat (length old).
Proof.
  unfold table_ok. destruct (decide (table = 0)).
  - intros [-> ->] _. simpl. lia.
  - by intros (_ & ? & _).
Qed.

(** ** Claims about the growable table *)

(** C2 (as amended).  A growth (a call with [count >= *current]) sets the
    capacity to [(count / bump + 1) * bump], the smallest multiple of [bump]
    that is strictly greater than [count]: [count] is an index that the
    table has to hold. *)
Theorem debug_amtable_alloc_capacity
    f line table current elsize count bump init_func old st :
  registry_ok st →
  table_ok st table current elsize old →
  0 ≤ current ≤ count → 0 < elsize → 0 < bump →
  count + bump < SIZE_T_MOD →
  grown_capacity count bump * elsize < SIZE_T_MOD →
  init_ok init_func →
  match debug_amtable_alloc (Some f) line table current elsize count bump init_func st with
  | Ok (_, _, capacity) _ =>
      capacity = (count / bump + 1) * bump ∧
      (bump | capacity) ∧ count < capacity ∧
      ∀ m, (bump | m) → count < m → capacity ≤ m
  | Fatal e =>
      e = AllocFailed f line (grown_capacity count bump * elsize) ∧ fails st ≠ []
  | Undefined => False
  end.
Proof.
  intros Hok Htab Hcur Hes Hbump Hcb Hfit Hinit.
  pose proof (debug_amtable_alloc_spec f line table current elsize count bump
                init_func old st Hok Htab Hcur Hes Hbump Hcb Hfit Hinit) as H.
  unfold returns in H.
  destruct (debug_amtable_alloc _ _ _ _ _ _ _ _ _) as [[[r t] c] st'|e|]; [|done..].
  destruct H as (t' & [= -> -> ->] & _).
  split; [done|]. split; [apply grown_capacity_multiple|].
  split; [by apply grown_capacity_gt|].
  intros m. by apply grown_capacity_least.
Qed.

Lemma debug_amtable_alloc_capacity_witness :
  match debug_amtable_alloc (Some (bs "f.c")) 1 0 0 4 8 8 None (init_state []) with
  | Ok (_, _, capacity) _ =>
      capacity = (8 / 8 + 1) * 8 ∧
      (8 | capacity) ∧ 8 < capacity ∧
      ∀ m, (8 | m) → 8 < m → capacity ≤ m
  | Fatal e =>
      e = AllocFailed (bs "f.c") 1 (grown_capacity 8 8 * 4) ∧ fails (init_state []) ≠ []
  | Undefined => False
  end.
Proof.
  apply (debug_amtable_alloc_capacity (bs "f.c") 1 0 0 4 8 8 None [] (init_state [])).
  - constructor.
  - done.
  - lia.
  - lia.
  - lia.
  - reflexivity.
  - reflexivity.
  - done.
Defined.

(** C2 as stated fails when [count] is a multiple of [bump]: for
    [count = 8] and [bump = 8] the smallest multiple that is at least
    [count] is 8, and the capacity set is 16. *)
Lemma debug_amtable_alloc_capacity_not_ceil :
  ∃ t st',
    debug_amtable_alloc (Some (bs "f.c")) 1 0 0 4 8 8 None (init_state [])
      = Ok (0, t, 16) st' ∧
    (8 | 8) ∧ 8 ≤ 8 ∧ 8 < 16 ∧
    (8 + 8 - 1) / 8 * 8 = 8.
Proof.
  eexists _, _. split; [by vm_compute|].
  split; [by exists 1|]. done.
Qed.

(** C8.  A call with [count < *current] changes nothing.  Every other call
    grows the table, to the capacity [(count / bump + 1) * bump], which is
    above [count]: the new block has exactly [capacity * elsize] bytes; it
    keeps the bytes of the first [*current] elements at their offsets; each
    of the [capacity - *current] elements after them (there is at least
    one) is zeroed and then handed once to the initializer, if there is one,
    in ascending order of index.  A growth ends in [errordump] only when a
    refusal of the platform allocator lies ahead. *)
Theorem debug_amtable_alloc_preserves
    f line table current elsize count bump init_func old st :
  registry_ok st →
  table_ok st table current elsize old →
  0 ≤ current → 0 < elsize → 0 < bump →
  count + bump < SIZE_T_MOD →
  grown_capacity count bump * elsize < SIZE_T_MOD →
  init_ok init_func →
  if decide (count < current) then
    debug_amtable_alloc (Some f) line table current elsize count bump init_func st
      = Ok (0, table, current) st
  else
    match debug_amtable_alloc (Some f) line table current elsize count bump init_func st with
    | Ok (r, table', capacity) st' =>
        r = 0 ∧
        capacity = (count / bump + 1) * bump ∧ current ≤ count < capacity ∧
        (∃ blk,
           heap st' !! table' = Some blk ∧
           Z.of_nat (length blk) = capacity * elsize ∧
           take (Z.to_nat (current * elsize)) blk =
             take (Z.to_nat (current * elsize)) old ∧
           drop (Z.to_nat (current * elsize)) blk =
             concat (replicate (Z.to_nat (capacity - current))
                       (new_element init_func elsize))) ∧
        inits st' =
          inits st ++
          match init_func with
          | Some _ => init_calls table' elsize current (Z.to_nat (capacity - current))
          | None => []
          end
    | Fatal e =>
        e = AllocFailed f line (grown_capacity count bump * elsize) ∧ true ∈ fails st
    | Undefined => False
    end.
Proof.
  intros Hok Htab Hcur Hes Hbump Hcb Hfit Hinit.
  destruct (decide (count < current)) as [Hlt|Hge].
  { unfold debug_amtable_alloc. by rewrite decide_False by lia. }
  pose proof (returns_refused _ _ _ _ _
                (calmly_debug_amtable_alloc (Some f) line table current elsize count bump
                   init_func)
                (debug_amtable_alloc_spec f line table current elsize count bump
                   init_func old st Hok Htab ltac:(lia) Hes Hbump Hcb Hfit Hinit)) as H.
  unfold returns in H.
  destruct (debug_amtable_alloc _ _ _ _ _ _ _ _ _) as [[[r t] c] st'|e|];
    [|by destruct H as [[-> _] ?] | done].
  destruct H as (t' & [= -> -> ->] & _ & Hblk & Hin & _).
  destruct (grown_capacity_gt count bump Hbump) as [Hgt _].
  pose proof (table_ok_length _ _ _ _ _ Htab Hes) as Hold.
  split; [done|]. split; [done|]. split; [lia|]. split; [|done].
  eexists. split; [exact Hblk|]. split.
  { apply length_grown_block; [done | done | lia | done]. }
  assert (length (take (Z.to_nat (current * elsize)) old) = Z.to_nat (current * elsize))
    as Hlen.
  { rewrite length_take. unfold table_ok in Htab.
    destruct (decide (table = 0)).
    - destruct Htab as [-> ->]. simpl. lia.
    - destruct Htab as (_ & ? & _). lia. }
  split.
  - rewrite <- Hlen at 1. by rewrite take_app_length.
  - rewrite <- Hlen at 1. by rewrite drop_app_length.
Qed.

Lemma debug_amtable_alloc_preserves_witness :
  match debug_amtable_alloc (Some (bs "f.c")) 1 7 3 4 3 8 None three_ints_state with
  | Ok (r, table', capacity) st' =>
      r = 0 ∧
      capacity = (3 / 8 + 1) * 8 ∧ 3 ≤ 3 < capacity ∧
      (∃ blk,
         heap st' !! table' = Some blk ∧
         Z.of_nat (length blk) = capacity * 4 ∧
         take (Z.to_nat (3 * 4)) blk = take (Z.to_nat (3 * 4)) three_ints ∧
         drop (Z.to_nat (3 * 4)) blk =
           concat (replicate (Z.to_nat (capacity - 3)) (new_element None 4))) ∧
      inits st' = inits three_ints_state ++ []
  | Fatal e =>
      e = AllocFailed (bs "f.c") 1 (grown_capacity 3 8 * 4) ∧
      true ∈ fails three_ints_state
  | Undefined => False
  end.
Proof.
  apply (debug_amtable_alloc_preserves (bs "f.c") 1 7 3 4 3 8 None three_ints
           three_ints_state).
  - constructor.
  - unfold table_ok. simpl. split; [reflexivity|]. split; [vm_compute; discriminate|].
    apply not_elem_of_nil.
  - lia.
  - lia.
  - lia.
  - reflexivity.
  - reflexivity.
  - done.
Defined.

Example amtable_grow_three_ints :
  ∃ t st',
    debug_amtable_alloc (Some (bs "f.c")) 1 7 3 4 3 8 None three_ints_state
      = Ok (0, t, 8) st' ∧
    heap st' !! t = Some (three_ints ++ zeros 20) ∧
    heap st' !! 7 = None ∧
    debug_amtable_alloc (Some (bs "f.c")) 1 t 8 4 5 8 None st' = Ok (0, t, 8) st'.
Proof.
  eexists _, _. split; [by vm_compute|]. split; [by vm_compute|].
  split; by vm_compute.
Qed.

(** C10.  [debug_amtable_free] releases the region and returns a capacity
    of zero, and the handle keeps the address of the released region:
    [debug_amfree] gets the pointer by value.  A second release through the
    handle as it is frees the region twice, and is defined once the caller
    has set the handle to zero. *)
Theorem debug_amtable_free_keeps_handle file line table current st blk :
  table ≠ 0 → heap st !! table = Some blk →
  ∃ st',
    debug_amtable_free file line table current st = Ok (table, 0) st' ∧
    heap st' !! table = None ∧
    (∀ q, q ≠ table → heap st' !! q = heap st !! q) ∧
    debug_amtable_free file line table 0 st' = Undefined ∧
    debug_amtable_free file line 0 0 st' = Ok (0, 0) st'.
Proof.
  intros Hne Hblk. exists (set_heap (delete table (heap st)) st).
  unfold debug_amtable_free, debug_amfree, bind, free, ret.
  rewrite !decide_False by done. rewrite Hblk. simpl_state.
  rewrite lookup_delete_eq. split; [done|]. split; [done|].
  split; [|done]. intros q Hq. by apply lookup_delete_ne.
Qed.

Lemma debug_amtable_free_keeps_handle_witness :
  ∃ st',
    debug_amtable_free (Some (bs "f.c")) 1 7 3 three_ints_state = Ok (7, 0) st' ∧
    heap st' !! 7 = None ∧
    (∀ q, q ≠ 7 → heap st' !! q = heap three_ints_state !! q) ∧
    debug_amtable_free (Some (bs "f.c")) 1 7 0 st' = Undefined ∧
    debug_amtable_free (Some (bs "f.c")) 1 0 0 st' = Ok (0, 0) st'.
Proof.
  apply (debug_amtable_free_keeps_handle (Some (bs "f.c")) 1 7 3 three_ints_state three_ints).
  - lia.
  - reflexivity.
Defined.

(** After a release, a growth through the handle as it is has no defined
    behaviour; through the handle set to zero it allocates a new table. *)
Example amtable_grow_after_free :
  ∃ st',
    debug_amtable_free (Some (bs "f.c")) 1 7 3 three_ints_state = Ok (7, 0) st' ∧
    debug_amtable_alloc (Some (bs "f.c")) 1 7 0 4 0 8 None st' = Undefined ∧
    ∃ t st'', debug_amtable_alloc (Some (bs "f.c")) 1 0 0 4 0 8 None st' = Ok (0, t, 8) st''.
Proof.
  eexists. split; [by vm_compute|]. split; [by vm_compute|].
  eexists _, _. by vm_compute.
Qed.

(** ** debug_stralloc *)

Lemma debug_stralloc_spec f line s st :
  registry_ok st → strlen s + 1 < SIZE_T_MOD →
  returns (debug_stralloc (Some f) line (Some s)) st
    (λ p st',
       p ≠ 0 ∧ heap st !! p = None ∧ heap st' !! p = Some (cstr s) ∧
       registry_ok st' ∧ extends st st' ∧ p ∉ str <$> root st')
    (λ e, e = AllocFailed f line (strlen s + 1) ∧ fails st ≠ []).
Proof.
  intros Hok Hsz. unfold debug_stralloc.
  assert (0 ≤ strlen s) as Hs0 by (unfold strlen; lia).
  apply returns_bind.
  eapply returns_mono; [by apply debug_caller_loc_spec | | done].
  intros d st1 (Hok1 & Hext1 & _). cbn beta.
  apply returns_bind. unfold malloc_enter at 1, returns at 1, ret at 1.
  unfold size_add, to_size_t. rewrite Z.mod_small by lia.
  apply returns_bind.
  eapply returns_mono; [by apply debug_alloc_spec | | ].
  2:{ intros e [-> Hf]. split; [done|]. intros E. by apply Hf, Hext1. }
  intros p st2 (Hp0 & Hfresh1 & Hp2 & Hok2 & Hext2 & Hstr2). cbn beta.
  assert (Z.to_nat (max (strlen s + 1) 1) = S (length s)) as Hmax.
  { rewrite max_spec. unfold strlen. lia. }
  rewrite Hmax in Hp2.
  assert (heap st !! p = None) as Hfresh.
  { eapply lookup_weaken_None; [exact Hfresh1 | apply Hext1]. }
  apply returns_bind. unfold strcpy. fold (cstr s).
  eapply store_returns; [exact Hp2 | done | by rewrite length_cstr, length_replicate |].
  rewrite whole_block by (by rewrite length_cstr, length_replicate).
  set (st3 := set_heap _ st2).
  assert (registry_ok st3) as Hok3 by (by apply registry_ok_private).
  assert (extends st st3) as Hext3.
  { apply extends_private; [by etrans | done]. }
  apply returns_bind.
  eapply returns_mono; [by apply debug_caller_loc_spec | | done].
  intros d' st4 (Hok4 & Hext4 & _). cbn beta.
  apply returns_bind. unfold malloc_leave, returns, ret.
  split; [done|]. split; [done|]. split.
  { eapply lookup_weaken; [|apply Hext4]. subst st3. simpl_state. apply lookup_insert_eq. }
  split; [done|]. split; [by etrans|].
  eapply extends_not_str; [exact Hext4 | | done].
  subst st3. simpl_state. rewrite lookup_insert_eq. by eexists.
Qed.

(** ** safe_env *)

Lemma cstring_of_array ptrs k : cstring_of ((Ptr <$> ptrs) ++ replicate k Undef) = None.
Proof. destruct ptrs; [by destruct k | done]. Qed.

Lemma cstring_at_mono h h' p s :
  h ⊆ h' → cstring_at h p = Some s → cstring_at h' p = Some s.
Proof.
  unfold cstring_at. intros Hsub Hs.
  destruct (h !! p) as [blk|] eqn:E; [|done].
  by rewrite (lookup_weaken _ _ _ _ E Hsub).
Qed.

Lemma env_array_not_string h q ptrs ss k p s :
  env_array h q ptrs ss k → cstring_at h p = Some s → p ≠ q.
Proof.
  intros [Hq _] Hs ->. unfold cstring_at in Hs. rewrite Hq in Hs. simpl in Hs.
  by rewrite cstring_of_array in Hs.
Qed.

Lemma env_array_mono h h' q ptrs ss k :
  h ⊆ h' → env_array h q ptrs ss k → env_array h' q ptrs ss k.
Proof.
  intros Hsub [Hq Hss]. split; [by eapply lookup_weaken|].
  eapply Forall2_impl; [exact Hss|]. intros p s [? ?]. split; [done|].
  by eapply cstring_at_mono.
Qed.

Lemma array_store (ptrs : list Z) k s :
  let blk := (Ptr <$> ptrs) ++ replicate (S k) Undef in
  take (length ptrs) blk ++ [Ptr s] ++ drop (length ptrs + length [Ptr s]) blk =
  (Ptr <$> ptrs ++ [s]) ++ replicate k Undef.
Proof.
  intros blk. subst blk.
  rewrite <- (length_fmap Ptr ptrs) at 1 2.
  rewrite take_app_length, drop_app_add' by done.
  rewrite fmap_app, <- app_assoc. done.
Qed.

Lemma env_array_push h h' q ptrs ss k s str :
  env_array h q ptrs ss (S k) → h ⊆ h' → s ≠ 0 → cstring_at h' s = Some str →
  env_array (<[q := (Ptr <$> ptrs ++ [s]) ++ replicate k Undef]> h') q
            (ptrs ++ [s]) (ss ++ [str]) k.
Proof.
  intros Harr Hsub Hs0 Hs.
  pose proof (env_array_mono _ _ _ _ _ _ Hsub Harr) as Harr'.
  split; [apply lookup_insert_eq|].
  apply Forall2_app.
  - eapply Forall2_impl; [apply Harr'|]. intros p t [? Ht]. split; [done|].
    unfold cstring_at. rewrite lookup_insert_ne; [done|].
    intros E. symmetry in E. revert E. by eapply env_array_not_string.
  - constructor; [|constructor]. split; [done|].
    unfold cstring_at. rewrite lookup_insert_ne; [done|].
    intros E. symmetry in E. revert E. by eapply env_array_not_string.
Qed.

(** Reading the list back, once the terminating NULL is stored. *)
Lemma env_strings_read h ptrs ss rest :
  Forall2 (λ p s, p ≠ 0 ∧ cstring_at h p = Some s) ptrs ss →
  env_strings h ((Ptr <$> ptrs) ++ Ptr 0 :: rest) = Some ss.
Proof.
  induction 1 as [|p s ptrs ss [Hp Hs] _ IH]; csimpl.
  - done.
  - rewrite decide_False by done. rewrite Hs. csimpl. by rewrite IH.
Qed.

Lemma env_array_terminate h q ptrs ss k :
  env_array h q ptrs ss (S k) →
  let h' := <[q := (Ptr <$> ptrs ++ [0]) ++ replicate k Undef]> h in
  h' !! q ≫= env_strings h' = Some ss.
Proof.
  intros Harr h'. subst h'. rewrite lookup_insert_eq.
  rewrite fmap_app, <- app_assoc.
  change (Some ?x ≫= ?f) with (f x).
  apply env_strings_read.
  eapply Forall2_impl; [apply Harr|]. intros p s [? Hs]. split; [done|].
  unfold cstring_at. rewrite lookup_insert_ne; [done|].
  intros E. symmetry in E. revert E. by eapply env_array_not_string.
Qed.

Lemma getenv_Some env name v :
  getenv env name = Some v → name ++ bs "=" ++ v ∈ env.
Proof.
  induction env as [|e env IH]; cbn [getenv]; [done|].
  destruct (bool_decide_reflect (take (length name + 1) e = name ++ bs "=")) as [E|_].
  - intros [= <-]. rewrite app_assoc, <- E, take_drop. by left.
  - intros H. right. by apply IH.
Qed.

Lemma fill_entry (name v : list byte) :
  let rep := replicate (length name + 1 + S (length v)) Undef in
  let b1 := take 0 rep ++ (Char <$> name) ++ drop (0 + length (Char <$> name)) rep in
  let b2 := take (0 + length (Char <$> name)) b1 ++ [Char "="%byte] ++
            drop (0 + length (Char <$> name) + length [Char "="%byte]) b1 in
  take (length name + 1) b2 ++ cstr v ++ drop (length name + 1 + length (cstr v)) b2 =
  cstr (name ++ bs "=" ++ v).
Proof.
  intros rep b1 b2.
  assert (length rep = (length name + 1 + S (length v))%nat) as Hrep
    by apply length_replicate.
  assert (b2 = take 0 rep ++ ((Char <$> name) ++ [Char "="%byte]) ++
               drop (0 + length (Char <$> name) + length [Char "="%byte]) rep) as Hb2.
  { subst b2 b1. apply store_block_app. rewrite length_fmap. simpl. lia. }
  pose proof (store_block_app rep ((Char <$> name) ++ [Char "="%byte]) (cstr v) 0) as H3.
  cbn zeta in H3. rewrite length_app, length_fmap, length_cstr in H3. simpl length in H3.
  rewrite length_fmap in Hb2. simpl length in Hb2.
  cbn [Nat.add] in Hb2, H3. rewrite <- Hb2 in H3. rewrite length_cstr.
  rewrite H3 by lia. rewrite take_0, drop_ge by lia. simpl app. rewrite app_nil_r.
  unfold cstr. rewrite !fmap_app, <- !app_assoc. done.
Qed.

(** The loop of the second branch: it never ends in [errordump]; what it
    has built when it stops is a prefix of the allowed entries, and all of
    them when no allocation fails. *)
Lemma safe_env_build_spec env q names :
  Forall entry_ok env →
  ∀ idx st ptrs ss k,
    env_array (heap st) q ptrs ss k → idx = Z.of_nat (length ptrs) →
    (length names < k)%nat →
    returns (safe_env_build env q idx names) st
      (λ idx' st',
         ∃ ptrs' done,
           idx' = Z.of_nat (length ptrs') ∧
           (length done ≤ length names)%nat ∧
           env_array (heap st') q ptrs' (ss ++ done) (k - length done) ∧
           done `prefix_of` allowed_entries env names ∧
           (fails st = [] → done = allowed_entries env names ∧ fails st' = []) ∧
           root st' = root st ∧
           done = match first_refusal (fails st) with
                  | None => allowed_entries env names
                  | Some n => take n (allowed_entries env names)
                  end)
      never.
Proof.
  intros Henv. induction names as [|name names IH];
    intros idx st ptrs ss k Harr -> Hk; cbn [safe_env_build].
  - unfold returns, ret. exists ptrs, []. rewrite app_nil_r, Nat.sub_0_r.
    do 5 (split; [done|]). split; [done|].
    by destruct (first_refusal (fails st)) as [[|n]|].
  - destruct (getenv env name) as [v|] eqn:Hg.
    2:{ unfold allowed_entries. cbn [omap list_omap]. rewrite Hg. cbn [fmap option_fmap option_map].
        eapply returns_mono; [apply (IH _ st ptrs ss k); [done | done | simpl in Hk; lia] | | done].
        intros idx' st' (ptrs' & dn & ? & ? & Ha & ? & ? & ?). exists ptrs', dn.
        split; [done|]. split; [simpl; lia|]. by do 3 (split; [done|]). }
    pose proof (getenv_Some _ _ _ Hg) as Hin.
    rewrite Forall_forall in Henv. destruct (Henv _ Hin) as (Hnul & _ & Hsz).
    set (e := name ++ bs "=" ++ v) in *.
    assert (strlen e = strlen name + 1 + strlen v) as He.
    { subst e. unfold strlen. rewrite !length_app. simpl. lia. }
    assert (0 ≤ strlen name ∧ 0 ≤ strlen v) as [Hn0 Hv0] by (unfold strlen; lia).
    assert (allowed_entries env (name :: names) = e :: allowed_entries env names) as Hall.
    { unfold allowed_entries. cbn [omap list_omap]. by rewrite Hg. }
    assert (size_add (strlen v) 1 = strlen v + 1) as ->.
    { unfold size_add, to_size_t. apply Z.mod_small. lia. }
    assert (size_add (size_add (strlen name) 1) (strlen v + 1) = strlen e + 1) as ->.
    { unfold size_add, to_size_t. rewrite (Z.mod_small (strlen name + 1)) by lia.
      rewrite Z.mod_small by lia. lia. }
    apply returns_bind, malloc_returns_exact.
    + intros Hf. rewrite decide_True by done. unfold returns, ret.
      exists ptrs, []. rewrite app_nil_r, Nat.sub_0_r. simpl_state.
      split; [done|]. split; [simpl; lia|]. split; [done|].
      split; [apply prefix_nil|]. split; [|split; [done|]].
      * intros E. by rewrite E in Hf.
      * destruct (fails st) as [|[] fl]; by simplify_eq/=.
    + intros Hhd s Hs0 Hs. rewrite decide_False by done.
      destruct k as [|k]; [simpl in Hk; lia|].
      destruct Harr as [Hq Hss].
      assert (s ≠ q) as Hsq by congruence.
      apply returns_bind. eapply store_returns.
      { simpl_state. rewrite lookup_insert_ne by done. exact Hq. }
      { lia. }
      { rewrite length_app, length_fmap, length_replicate. simpl. lia. }
      rewrite Nat2Z.id.
      pose proof (array_store ptrs k s) as Ha. cbn zeta in Ha. rewrite Ha. clear Ha.
      simpl_state.
      apply returns_bind. unfold memcpy_str at 1. rewrite take_cstr.
      eapply store_returns.
      { simpl_state. rewrite lookup_insert_ne by done. apply lookup_insert_eq. }
      { lia. }
      { rewrite length_fmap, length_replicate. unfold strlen in *. lia. }
      simpl_state.
      apply returns_bind. eapply store_returns.
      { simpl_state. apply lookup_insert_eq. }
      { lia. }
      { rewrite !length_app, length_take, length_drop, length_fmap, length_replicate.
        unfold strlen in *. simpl. lia. }
      simpl_state.
      apply returns_bind. unfold memcpy_str.
      replace (take (Z.to_nat (strlen v + 1)) (Char <$> v ++ [NUL])) with (cstr v).
      2:{ unfold cstr. rewrite take_ge; [done|].
          rewrite length_fmap, length_app. unfold strlen. simpl. lia. }
      eapply store_returns.
      { simpl_state. apply lookup_insert_eq. }
      { lia. }
      { rewrite length_cstr. rewrite !length_app, !length_take, !length_drop.
        rewrite !length_app, !length_take, !length_drop, !length_fmap, !length_replicate.
        unfold strlen in *. simpl. lia. }
      simpl_state. rewrite !set_heap_set_heap, !insert_insert_eq.
      replace (Z.to_nat (strlen e + 1)) with (length name + 1 + S (length v))%nat
        by (unfold strlen in *; lia).
      replace (Z.to_nat (strlen name)) with (0 + length (Char <$> name))%nat
        by (rewrite length_fmap; unfold strlen; lia).
      change (Z.to_nat 0) with 0%nat.
      replace (Z.to_nat (strlen name + 1)) with (length name + 1)%nat
        by (unfold strlen; lia).
      pose proof (fill_entry name v) as Hfill. cbn zeta in Hfill.
      rewrite length_fmap in Hfill |- *. cbn [Nat.add] in Hfill |- *.
      rewrite Hfill. clear Hfill. fold e.
      rewrite (insert_insert_ne _ s q) by done. rewrite insert_insert_eq.
      set (stk := set_heap _ _).
      assert (env_array (heap stk) q (ptrs ++ [s]) (ss ++ [e]) k) as Harr'.
      { subst stk. simpl_state. eapply env_array_push.
        - by split.
        - by apply insert_subseteq.
        - done.
        - unfold cstring_at. rewrite lookup_insert_eq. simpl.
          rewrite <- (app_nil_r (cstr e)). by apply cstring_of_cstr. }
      eapply returns_mono;
        [apply (IH _ stk (ptrs ++ [s]) (ss ++ [e]) k); [done | | simpl in Hk; lia] | | done].
      { rewrite length_app. simpl. lia. }
      intros idx' st' (ptrs' & dn & ? & ? & Harr'' & Hpre & Hfl & Hroot & Hex).
      exists ptrs', (e :: dn). rewrite Hall.
      split; [done|]. split; [simpl; lia|]. split.
      { rewrite <- app_assoc in Harr''. exact Harr''. }
      split; [by apply prefix_cons|]. split; [|split; [done|]].
      { intros E. destruct Hfl as [-> ?]; [|done]. subst stk. simpl_state. by rewrite E. }
      subst stk. simpl_state.
      destruct (fails st) as [|[] fl]; [by subst dn | done |].
      cbn [first_refusal tail] in *.
      destruct (first_refusal fl); by subst dn.
Qed.

(** *** Names of entries *)

Lemma env_name_eq n : ∀ e,
  "="%byte ∉ n →
  take (length n + 1) e = n ++ ["="%byte] ↔ env_name e = n ∧ "="%byte ∈ e.
Proof.
  induction n as [|c n IH]; intros e Hn.
  - destruct e as [|b e]; simpl.
    + split; [done|]. intros [_ H]. by apply elem_of_nil in H.
    + rewrite take_0. destruct (decide (b = "="%byte)) as [->|Hb].
      * split; [intros _; split; [done | by left] | done].
      * split; [by intros [= ->] | by intros [? _]].
  - apply not_elem_of_cons in Hn as [Hc Hn].
    destruct e as [|b e]; simpl.
    + split; [done|]. intros [_ H]. by apply elem_of_nil in H.
    + destruct (decide (b = "="%byte)) as [->|Hb].
      * split; [by intros [= <-] | by intros [? _]].
      * split.
        -- intros [= -> He]. apply IH in He as [-> ?]; [|done]. split; [done | by right].
        -- intros [[= -> He] Hin]. f_equal. apply IH; [done|]. split; [done|].
           by apply elem_of_cons in Hin as [?|?].
Qed.

Lemma env_name_prefix p : ∀ e,
  "="%byte ∉ p → take (length p) e = p ↔ p `prefix_of` env_name e.
Proof.
  induction p as [|c p IH]; intros e Hp.
  - simpl. split; [intros _; apply prefix_nil | done].
  - apply not_elem_of_cons in Hp as [Hc Hp].
    destruct e as [|b e]; simpl.
    + split; [done|]. intros H. by apply prefix_nil_not in H.
    + destruct (decide (b = "="%byte)) as [->|Hb].
      * split; [by intros [= <-]|]. intros H. by apply prefix_nil_not in H.
      * split.
        -- intros [= -> He]. apply prefix_cons. by apply IH.
        -- intros H. apply prefix_cons_inv_1 in H as E. subst b.
           apply prefix_cons_inv_2 in H. f_equal. by apply IH.
Qed.

(** The test of the copying loop is a test on the name of the entry. *)
Lemma locale_test e :
  "="%byte ∈ e →
  negb (strncmp_eq (bs "LANG=") e 5) && negb (strncmp_eq (bs "LC_") e 3) =
  bool_decide (¬ locale_name (env_name e)).
Proof.
  intros He. unfold strncmp_eq, locale_name.
  change (take 5 (bs "LANG=")) with (bs "LANG" ++ ["="%byte]).
  change (take 3 (bs "LC_")) with (bs "LC_").
  pose proof (env_name_eq (bs "LANG") e) as H1.
  pose proof (env_name_prefix (bs "LC_") e) as H2.
  change (length (bs "LANG") + 1)%nat with 5%nat in H1.
  change (length (bs "LC_")) with 3%nat in H2.
  assert ("="%byte ∉ bs "LANG") as Hn1.
  { intros H. vm_compute in H. by repeat (inversion H as [|? ? ? H']; clear H; rename H' into H). }
  assert ("="%byte ∉ bs "LC_") as Hn2.
  { intros H. vm_compute in H. by repeat (inversion H as [|? ? ? H']; clear H; rename H' into H). }
  specialize (H1 Hn1). specialize (H2 Hn2).
  destruct (bool_decide_reflect (bs "LANG" ++ ["="%byte] = take 5 e)) as [E1|E1];
  destruct (bool_decide_reflect (bs "LC_" = take 3 e)) as [E2|E2]; simpl;
  symmetry; [apply bool_decide_eq_false_2.. | apply bool_decide_eq_true_2].
  - intros Hnot. apply Hnot. left. by apply H1.
  - intros Hnot. apply Hnot. left. by apply H1.
  - intros Hnot. apply Hnot. right. by apply H2.
  - intros [Hl|Hl].
    + apply E1. symmetry. apply H1. done.
    + apply E2. symmetry. by apply H2.
Qed.

(** The copying loop of the first branch: it copies the entries whose name
    is not a locale name, unless [stralloc] ends in [errordump]. *)
Lemma safe_env_copy_spec q env :
  Forall entry_ok env →
  ∀ p st ptrs ss k,
    registry_ok st → env_array (heap st) q ptrs ss k →
    p = Z.of_nat (length ptrs) → (length env < k)%nat →
    q ∉ str <$> root st →
    returns (safe_env_copy q p env) st
      (λ p' st',
         ∃ ptrs',
           p' = Z.of_nat (length ptrs') ∧
           env_array (heap st') q ptrs' (ss ++ kept_entries env)
                     (k - length (kept_entries env)) ∧
           (length (kept_entries env) ≤ length env)%nat ∧
           registry_ok st' ∧ (q ∉ str <$> root st') ∧
           (fails st = [] → fails st' = []))
      (λ e, fails st ≠ [] ∧ ∃ n, e = AllocFailed (bs "alloc.c") 461 n).
Proof.
  induction 1 as [|e env (Hnul & Heq & Hsz) Henv IH];
    intros p st ptrs ss k Hok Harr -> Hk Hq; cbn [safe_env_copy].
  - unfold returns, ret. exists ptrs. unfold kept_entries. simpl.
    rewrite app_nil_r, Nat.sub_0_r. by do 5 (split; [done|]).
  - rewrite locale_test by done. unfold kept_entries.
    destruct (bool_decide_reflect (¬ locale_name (env_name e))) as [Hkeep|Hdrop].
    2:{ rewrite filter_cons_False by done. fold (kept_entries env).
        eapply returns_mono;
          [apply (IH _ st ptrs ss k); [done | done | done | simpl in Hk; lia | done] | | done].
        intros p' st' (ptrs' & ? & ? & ? & ? & ? & ?). exists ptrs'.
        split; [done|]. split; [done|]. split; [cbn [length]; lia|]. done. }
    rewrite filter_cons_True by done. fold (kept_entries env).
    destruct k as [|k]; [simpl in Hk; lia|].
    apply returns_bind. unfold stralloc.
    eapply returns_mono; [by apply debug_stralloc_spec | | ].
    2:{ intros e' [-> Hf]. split; [done | by eexists]. }
    intros s st1 (Hs0 & Hfresh & Hs1 & Hok1 & Hext1 & Hstr1). cbn beta.
    pose proof (env_array_mono _ _ _ _ _ _ (ext_heap _ _ Hext1) Harr) as Harr1.
    assert (q ∉ str <$> root st1) as Hq1.
    { eapply extends_not_str; [exact Hext1 | | done]. destruct Harr as [-> _]. by eexists. }
    apply returns_bind. eapply store_returns.
    { apply Harr1. }
    { lia. }
    { rewrite length_app, length_fmap, length_replicate. simpl. lia. }
    rewrite Nat2Z.id.
    pose proof (array_store ptrs k s) as Ha. cbn zeta in Ha. rewrite Ha. clear Ha.
    set (st2 := set_heap _ st1).
    assert (env_array (heap st2) q (ptrs ++ [s]) (ss ++ [e]) k) as Harr2.
    { subst st2. simpl_state. eapply env_array_push; [exact Harr1 | done | done |].
      unfold cstring_at. rewrite Hs1. simpl.
      rewrite <- (app_nil_r (cstr e)). by apply cstring_of_cstr. }
    assert (registry_ok st2) as Hok2 by (by apply registry_ok_private).
    eapply returns_mono;
      [apply (IH _ st2 (ptrs ++ [s]) (ss ++ [e]) k); try done | | ].
    + rewrite length_app. simpl. lia.
    + simpl in Hk. lia.
    + intros p' st' (ptrs' & ? & Harr' & ? & ? & ? & Hfl). exists ptrs'.
      split; [done|]. split.
      { rewrite <- app_assoc in Harr'. exact Harr'. }
      split; [cbn [length]; lia|]. split; [done|]. split; [done|].
      intros E. apply Hfl. subst st2. simpl_state. by apply Hext1.
    + intros e' [Hf Hn]. split; [|done]. intros E. apply Hf.
      subst st2. simpl_state. by apply Hext1.
Qed.

(** The second branch (the identifiers differ) returns a valid list for
    every outcome of the allocations, and never ends in [errordump]. *)
Lemma safe_env_restricted CY NP pr st :
  ¬ (uid pr = euid pr ∧ gid pr = egid pr) →
  Forall entry_ok (environ pr) →
  ∃ envp st' built,
    safe_env CY NP pr st = Ok envp st' ∧
    read_env st' envp = Some built ∧
    built `prefix_of` allowed_entries (environ pr) (safe_env_list CY NP) ∧
    (fails st = [] → built = allowed_entries (environ pr) (safe_env_list CY NP)) ∧
    built = match first_refusal (fails st) with
            | None => allowed_entries (environ pr) (safe_env_list CY NP)
            | Some O => []
            | Some (S n) => take n (allowed_entries (environ pr) (safe_env_list CY NP))
            end.
Proof.
  intros Hids Henv.
  cut (returns (safe_env CY NP pr) st
         (λ envp st', ∃ built,
            read_env st' envp = Some built ∧
            built `prefix_of` allowed_entries (environ pr) (safe_env_list CY NP) ∧
            (fails st = [] → built = allowed_entries (environ pr) (safe_env_list CY NP)) ∧
            built = match first_refusal (fails st) with
                    | None => allowed_entries (environ pr) (safe_env_list CY NP)
                    | Some O => []
                    | Some (S n) =>
                        take n (allowed_entries (environ pr) (safe_env_list CY NP))
                    end)
         never).
  { intros H. apply returns_ok in H as (envp & st' & E & built & ?). by exists envp, st', built. }
  unfold safe_env. rewrite decide_False by done.
  set (names := safe_env_list CY NP).
  assert (Z.to_nat (size_mul (SAFE_ENV_CNT CY NP) SIZEOF_ptr / SIZEOF_ptr) = S (length names))
    as Hcnt by (by destruct CY, NP).
  apply returns_bind. unfold malloc_ptrs. apply malloc_returns_exact.
  - intros Hf. rewrite decide_False by (intros H; by apply H).
    unfold returns, ret. exists []. split; [done|]. split; [apply prefix_nil|].
    split; [intros E; by rewrite E in Hf|].
    destruct (fails st) as [|[] fl]; by simplify_eq/=.
  - intros Hhd q Hq0 Hq. rewrite decide_True by done. rewrite Hcnt.
    set (st1 := State _ _ _ _).
    assert (env_array (heap st1) q [] [] (S (length names))) as Harr.
    { split; [apply lookup_insert_eq | constructor]. }
    apply returns_bind.
    eapply returns_mono;
      [apply (safe_env_build_spec _ q names Henv 0 st1 [] [] _ Harr); [done | lia] | | done].
    intros idx st2 (ptrs & built & -> & Hlen & Harr2 & Hpre & Hfl & _ & Hex). cbn beta.
    simpl app in Harr2.
    destruct (S (length names) - length built)%nat as [|k] eqn:Hk; [lia|].
    apply returns_bind. eapply store_returns.
    { apply Harr2. }
    { lia. }
    { rewrite length_app, length_fmap, length_replicate. simpl. lia. }
    rewrite Nat2Z.id.
    pose proof (array_store ptrs k 0) as Ha. cbn zeta in Ha. rewrite Ha. clear Ha.
    unfold returns, ret. exists built. split.
    { unfold read_env. simpl_state. by apply (env_array_terminate _ _ _ _ _ Harr2). }
    split; [done|]. split.
    { intros E. apply Hfl. subst st1. simpl_state. by rewrite E. }
    subst st1. simpl_state. fold names.
    destruct (fails st) as [|[] fl]; [done | done |].
    cbn [first_refusal tail] in *. by destruct (first_refusal fl).
Qed.

(** The first branch (the identifiers match): the entries kept; the empty
    list when the array cannot be allocated; [errordump] only when an
    allocation failed. *)
Lemma safe_env_unrestricted CY NP pr st :
  uid pr = euid pr ∧ gid pr = egid pr →
  registry_ok st →
  Forall entry_ok (environ pr) →
  Z.of_nat (length (environ pr)) < INT_MAX →
  returns (safe_env CY NP pr) st
    (λ envp st',
       read_env st' envp = Some (kept_entries (environ pr)) ∨
       (envp = StaticEnd ∧ fails st ≠ []))
    (λ e, fails st ≠ []).
Proof.
  intros Hids Hok Henv Hlen.
  unfold safe_env. rewrite decide_True by done.
  rewrite decide_False by lia.
  set (env := environ pr) in *.
  assert (Z.to_nat (size_mul (1 + Z.of_nat (length env)) SIZEOF_ptr / SIZEOF_ptr)
          = S (length env)) as Hcnt.
  { unfold size_mul, to_size_t, SIZEOF_ptr.
    rewrite Z.mod_small.
    - rewrite Z.div_mul by done. lia.
    - change INT_MAX with 2147483647 in Hlen.
      change SIZE_T_MOD with 18446744073709551616. lia. }
  apply returns_bind. unfold malloc_ptrs. apply malloc_returns.
  { intros Hf. rewrite decide_False by (intros H; by apply H).
    unfold returns, ret. by right. }
  intros q Hq0 Hq. rewrite decide_True by done. rewrite Hcnt.
  set (st1 := State _ _ _ _).
  assert (env_array (heap st1) q [] [] (S (length env))) as Harr.
  { split; [apply lookup_insert_eq | constructor]. }
  assert (registry_ok st1) as Hok1.
  { apply (registry_ok_mono st); [done | by apply insert_subseteq | done]. }
  assert (q ∉ str <$> root st1) as Hq1 by (by apply (registry_ok_fresh st)).
  apply returns_bind.
  eapply returns_mono;
    [apply (safe_env_copy_spec q env Henv 0 st1 [] [] _ Hok1 Harr); [done | lia | done] | | ].
  2:{ intros e [Hf _] E. apply Hf. subst st1. simpl_state. by rewrite E. }
  intros p st2 (ptrs & -> & Harr2 & Hle & Hok2 & Hq2 & _). cbn beta.
  simpl app in Harr2.
  destruct (S (length env) - length (kept_entries env))%nat as [|k] eqn:Hk; [lia|].
  apply returns_bind. eapply store_returns.
  { apply Harr2. }
  { lia. }
  { rewrite length_app, length_fmap, length_replicate. simpl. lia. }
  rewrite Nat2Z.id.
  pose proof (array_store ptrs k 0) as Ha. cbn zeta in Ha. rewrite Ha. clear Ha.
  unfold returns, ret, read_env. simpl_state. left.
  by apply (env_array_terminate _ _ _ _ _ Harr2).
Qed.

(** The first branch, outcome by outcome: the empty list when the array is
    refused; otherwise every entry kept, or [errordump] from the [stralloc]
    of an entry, and then a refusal lay ahead after the array's answer. *)
Lemma safe_env_matching CY NP pr st :
  uid pr = euid pr ∧ gid pr = egid pr →
  registry_ok st →
  Forall entry_ok (environ pr) →
  Z.of_nat (length (environ pr)) < INT_MAX →
  returns (safe_env CY NP pr) st
    (λ envp st',
       if decide (head (fails st) = Some true)
       then envp = StaticEnd ∧ read_env st' envp = Some []
       else read_env st' envp = Some (kept_entries (environ pr)))
    (λ e, head (fails st) ≠ Some true ∧ true ∈ tail (fails st) ∧
          ∃ n, e = AllocFailed (bs "alloc.c") 461 n).
Proof.
  intros Hids Hok Henv Hlen.
  unfold safe_env. rewrite decide_True by done.
  rewrite decide_False by lia.
  set (env := environ pr) in *.
  assert (Z.to_nat (size_mul (1 + Z.of_nat (length env)) SIZEOF_ptr / SIZEOF_ptr)
          = S (length env)) as Hcnt.
  { unfold size_mul, to_size_t, SIZEOF_ptr.
    rewrite Z.mod_small.
    - rewrite Z.div_mul by done. lia.
    - change INT_MAX with 2147483647 in Hlen.
      change SIZE_T_MOD with 18446744073709551616. lia. }
  apply returns_bind. unfold malloc_ptrs. apply malloc_returns_exact.
  { intros Hf. rewrite decide_False by (intros H; by apply H).
    unfold returns, ret. by rewrite decide_True by done. }
  intros Hhd q Hq0 Hq. rewrite decide_True by done. rewrite Hcnt.
  set (st1 := State _ _ _ _).
  assert (env_array (heap st1) q [] [] (S (length env))) as Harr.
  { split; [apply lookup_insert_eq | constructor]. }
  assert (registry_ok st1) as Hok1.
  { apply (registry_ok_mono st); [done | by apply insert_subseteq | done]. }
  assert (q ∉ str <$> root st1) as Hq1 by (by apply (registry_ok_fresh st)).
  apply returns_bind.
  eapply returns_mono;
    [apply (returns_refused _ _ _ _ _ (calmly_safe_env_copy q 0 env)
              (safe_env_copy_spec q env Henv 0 st1 [] [] _ Hok1 Harr
                 eq_refl ltac:(lia) Hq1)) | | ].
  2:{ intros e [[_ Hn] Hin]. done. }
  intros p st2 (ptrs & -> & Harr2 & Hle & Hok2 & Hq2 & _). cbn beta.
  simpl app in Harr2.
  destruct (S (length env) - length (kept_entries env))%nat as [|k] eqn:Hk; [lia|].
  apply returns_bind. eapply store_returns.
  { apply Harr2. }
  { lia. }
  { rewrite length_app, length_fmap, length_replicate. simpl. lia. }
  rewrite Nat2Z.id.
  pose proof (array_store ptrs k 0) as Ha. cbn zeta in Ha. rewrite Ha. clear Ha.
  unfold returns, ret, read_env. simpl_state. rewrite decide_False by done.
  by apply (env_array_terminate _ _ _ _ _ Harr2).
Qed.

(** ** Claims about the environment *)

(** C7 (as amended).  On a well-formed environment.  With matching real
    and effective identifiers: when the platform refuses the array of the
    list, [safe_env] returns the empty list (the NULL that ends
    [safe_env_list]); otherwise a call that returns gives the entries of
    [environ], in their order, except those whose name is [LANG] or starts
    with [LC_]; and the call returns unless a refusal lies ahead after the
    array's answer, in which case the [stralloc] of an entry may end it in
    [errordump].  With differing identifiers [safe_env] always returns:
    for each name of [safe_env_list] ([TZ], the names of the build,
    [DISPLAY]) that is set, the entry ["NAME=VALUE"], and nothing else -
    all of them when the platform refuses nothing, none when it refuses the
    array, and otherwise those built before the first refusal. *)
Theorem safe_env_filters CY NP pr st :
  registry_ok st →
  Forall entry_ok (environ pr) →
  Z.of_nat (length (environ pr)) < INT_MAX →
  if decide (uid pr = euid pr ∧ gid pr = egid pr) then
    match safe_env CY NP pr st with
    | Ok envp st' =>
        if decide (head (fails st) = Some true)
        then envp = StaticEnd ∧ read_env st' envp = Some []
        else read_env st' envp =
               Some (filter (λ e, ¬ (env_name e = bs "LANG" ∨
                                      bs "LC_" `prefix_of` env_name e))
                            (environ pr))
    | Fatal e =>
        head (fails st) ≠ Some true ∧ true ∈ tail (fails st) ∧
        ∃ n, e = AllocFailed (bs "alloc.c") 461 n
    | Undefined => False
    end
  else
    let allowed :=
      omap (λ name, (λ v, name ++ bs "=" ++ v) <$> getenv (environ pr) name)
           ([bs "TZ"] ++ (if CY then [bs "SYSTEMROOT"] else []) ++
            (if NP then [bs "PATH"] else []) ++ [bs "DISPLAY"]) in
    ∃ envp st',
      safe_env CY NP pr st = Ok envp st' ∧
      read_env st' envp =
        Some (match first_refusal (fails st) with
              | None => allowed
              | Some O => []
              | Some (S n) => take n allowed
              end).
Proof.
  intros Hok Henv Hlen.
  destruct (decide (uid pr = euid pr ∧ gid pr = egid pr)) as [Hids|Hids].
  - exact (safe_env_matching CY NP pr st Hids Hok Henv Hlen).
  - destruct (safe_env_restricted CY NP pr st Hids Henv)
      as (envp & st' & built & E & Hread & _ & _ & Hex).
    exists envp, st'. split; [done|]. by rewrite Hread, Hex.
Qed.

Lemma safe_env_filters_witness :
  if decide (uid (example_process false) = euid (example_process false) ∧
             gid (example_process false) = egid (example_process false)) then
    match safe_env false true (example_process false) (init_state [true]) with
    | Ok envp st' =>
        if decide (head (fails (init_state [true])) = Some true)
        then envp = StaticEnd ∧ read_env st' envp = Some []
        else read_env st' envp =
               Some (filter (λ e, ¬ (env_name e = bs "LANG" ∨
                                      bs "LC_" `prefix_of` env_name e))
                            (environ (example_process false)))
    | Fatal e =>
        head (fails (init_state [true])) ≠ Some true ∧
        true ∈ tail (fails (init_state [true])) ∧
        ∃ n, e = AllocFailed (bs "alloc.c") 461 n
    | Undefined => False
    end
  else
    let allowed :=
      omap (λ name, (λ v, name ++ bs "=" ++ v) <$>
                      getenv (environ (example_process false)) name)
           ([bs "TZ"] ++ (if false then [bs "SYSTEMROOT"] else []) ++
            (if true then [bs "PATH"] else []) ++ [bs "DISPLAY"]) in
    ∃ envp st',
      safe_env false true (example_process false) (init_state [true]) = Ok envp st' ∧
      read_env st' envp =
        Some (match first_refusal (fails (init_state [true])) with
              | None => allowed
              | Some O => []
              | Some (S n) => take n allowed
              end).
Proof.
  apply (safe_env_filters false true (example_process false) (init_state [true])).
  - constructor.
  - apply (bool_decide_unpack _). by vm_compute.
  - reflexivity.
Defined.

(** C7 as stated fails when the array of the list cannot be allocated: the
    identifiers match, ["A=1"] is no locale variable, and the list returned
    is empty. *)
Lemma safe_env_array_failure_empty :
  ∃ st',
    uid (example_process false) = euid (example_process false) ∧
    gid (example_process false) = egid (example_process false) ∧
    bs "A=1" ∈ environ (example_process false) ∧
    env_name (bs "A=1") = bs "A" ∧
    safe_env false false (example_process false) (init_state [true]) = Ok StaticEnd st' ∧
    read_env st' StaticEnd = Some [].
Proof.
  eexists. split; [done|]. split; [done|]. split; [by left|].
  split; [done|]. split; by vm_compute.
Qed.

Example safe_env_unprivileged :
  ∃ envp st',
    safe_env false false (example_process false) (init_state []) = Ok envp st' ∧
    read_env st' envp = Some [bs "A=1"; bs "TZ=UTC"].
Proof. eexists _, _. split; by vm_compute. Qed.

Example safe_env_privileged :
  ∃ envp st',
    safe_env false false (example_process true) (init_state []) = Ok envp st' ∧
    read_env st' envp = Some [bs "TZ=UTC"].
Proof. eexists _, _. split; by vm_compute. Qed.

(** C3.  In the branch of matching identifiers the copy of an entry is made
    by [stralloc]: when the platform refuses that allocation, [safe_env]
    ends in [errordump] instead of returning a shorter list. *)
Theorem safe_env_stralloc_fatal :
  safe_env false false (Process [bs "A=1"] 1000 1000 100 100)
    (init_state [false; false; false; true])
  = Fatal (AllocFailed (bs "alloc.c") 461 4).
Proof. by vm_compute. Qed.

(** The same failure in the branch of differing identifiers gives a valid,
    shorter list. *)
Example safe_env_privileged_degrades :
  ∃ envp st',
    safe_env false false (example_process true) (init_state [false; true]) = Ok envp st' ∧
    read_env st' envp = Some [] ∧
    safe_env false false (example_process true) (init_state [true]) = Ok StaticEnd (init_state []).
Proof. eexists _, _. split; [by vm_compute|]. split; by vm_compute. Qed.

(** * Further properties *)

(** ** The registry, case by case *)

(** The outcome of [debug_caller_loc] in each of its cases: a known site,
    a failed allocation, a new entry. *)
Lemma debug_caller_loc_exact f line st :
  registry_ok st →
  returns (debug_caller_loc (Some f) line) st
    (λ d st',
       inits st' = inits st ∧
       match d with
       | Unknown =>
           Forall (λ ls, cstring_at (heap st) (str ls) ≠ Some (loc_string f line))
                  (root st) ∧
           fails st ≠ [] ∧ heap st' = heap st ∧ root st' = root st
       | Interned s =>
           (∃ ls, ls ∈ root st ∧ str ls = s ∧
                  cstring_at (heap st) s = Some (loc_string f line) ∧
                  heap st' = heap st ∧ fails st' = fails st ∧
                  root st' = if decide (Some ls ≠ LIST_FIRST (root st))
                             then ls :: filter (λ x, x ≠ ls) (root st)
                             else root st) ∨
           (Forall (λ ls, cstring_at (heap st) (str ls) ≠ Some (loc_string f line))
                   (root st) ∧
            ∃ n, n ≠ 0 ∧ s ≠ 0 ∧ n ≠ s ∧
                 heap st !! n = None ∧ heap st !! s = None ∧
                 heap st' = <[s := cstr (loc_string f line)]>
                              (<[n := replicate (Z.to_nat SIZEOF_loc_str) Undef]>
                                 (heap st)) ∧
                 fails st' = tail (tail (fails st)) ∧
                 root st' = LocStr n s :: root st)
       end) never.
Proof.
  intros Hok. unfold debug_caller_loc.
  set (loc := loc_string f line).
  apply returns_bind. unfold gets at 1, returns at 1.
  destruct (loc_search_ok loc (root st) st Hok) as (r & Hr & Hspec).
  apply returns_bind. unfold returns at 1. rewrite Hr.
  destruct r as [ls|].
  - destruct Hspec as [Hin Hs].
    apply returns_bind.
    destruct (decide (Some ls ≠ LIST_FIRST (root st))) as [Hne|He].
    + apply returns_bind. unfold LIST_REMOVE, LIST_INSERT_HEAD, modify, returns, ret.
      simpl. split; [done|]. left. exists ls.
      rewrite decide_True by done. done.
    + unfold returns, ret. simpl. split; [done|]. left. exists ls.
      rewrite decide_False by done. done.
  - apply returns_bind, malloc_returns.
    + intros Hf. rewrite decide_True by done. unfold returns, ret. simpl_state. done.
    + intros n Hn0 Hn. rewrite decide_False by done.
      apply returns_bind, malloc_returns.
      * intros Hf. rewrite decide_True by done.
        apply returns_bind. eapply free_returns.
        { apply lookup_insert_eq. }
        2:{ done. }
        intros _. unfold returns, ret. simpl_state.
        rewrite delete_insert_id by done.
        split; [done|]. split; [done|]. split; [|done].
        intros E. by rewrite E in Hf.
      * intros s Hs0 Hs. rewrite decide_False by done. simpl_state.
        apply lookup_insert_None in Hs as [Hs Hne].
        apply returns_bind. unfold strcpy. eapply store_returns.
        { apply lookup_insert_eq. }
        { done. }
        { fold (cstr loc). rewrite length_cstr, length_replicate. unfold strlen. lia. }
        fold (cstr loc). rewrite whole_block.
        2:{ rewrite length_cstr, length_replicate. unfold strlen. lia. }
        simpl_state. rewrite insert_insert_eq.
        do 3 apply returns_bind. unfold malloc_mark, LIST_INSERT_HEAD, modify, returns, ret.
        simpl_state. split; [done|]. right. split; [done|].
        exists n. done.
Qed.

Lemma registry_contents_known st loc :
  Some loc ∈ registry_contents st ↔
  ∃ ls, ls ∈ root st ∧ cstring_at (heap st) (str ls) = Some loc.
Proof.
  unfold registry_contents. rewrite list_elem_of_fmap. split.
  - intros (ls & E & Hls). eauto.
  - intros (ls & Hls & E). eauto.
Qed.

Lemma registry_contents_unknown st loc :
  Forall (λ ls, cstring_at (heap st) (str ls) ≠ Some loc) (root st) →
  Some loc ∉ registry_contents st.
Proof.
  rewrite Forall_forall. intros Hall (ls & Hls & E)%registry_contents_known.
  by apply (Hall ls).
Qed.

(** ** Properties of the registry *)

(** X1.  On a well-formed registry [debug_caller_loc] always returns.  It
    falls back to the literal only for a site that the registry does not
    hold and only when an allocation failed; the heap and the list are then
    exactly as before the call: the node that was allocated before the
    string could not be is released again. *)
Theorem debug_caller_loc_fallback_clean f line st :
  registry_ok st →
  ∃ d st',
    debug_caller_loc (Some f) line st = Ok d st' ∧
    inits st' = inits st ∧
    (d = Unknown →
     heap st' = heap st ∧ root st' = root st ∧ fails st ≠ [] ∧
     Some (loc_string f line) ∉ registry_contents st).
Proof.
  intros Hok.
  destruct (returns_ok _ _ _ (debug_caller_loc_exact f line st Hok))
    as (d & st' & E & Hi & Hd).
  exists d, st'. split; [done|]. split; [done|].
  intros ->. destruct Hd as (Hall & Hf & Hh & Hr).
  split; [done|]. split; [done|]. split; [done|].
  by apply registry_contents_unknown.
Qed.

Lemma debug_caller_loc_fallback_clean_witness :
  ∃ d st',
    debug_caller_loc (Some (bs "src/f.c")) 12 (one_site_state [false; true]) = Ok d st' ∧
    inits st' = inits (one_site_state [false; true]) ∧
    (d = Unknown →
     heap st' = heap (one_site_state [false; true]) ∧
     root st' = root (one_site_state [false; true]) ∧
     fails (one_site_state [false; true]) ≠ [] ∧
     Some (loc_string (bs "src/f.c") 12) ∉ registry_contents (one_site_state [false; true])).
Proof.
  apply (debug_caller_loc_fallback_clean (bs "src/f.c") 12 (one_site_state [false; true])).
  constructor; [|constructor]. eexists. vm_compute. reflexivity.
Defined.

(** X2.  A descriptor other than the literal is the string of the node
    that the call leaves at the head of the list (the most recently used
    site comes first), and all other nodes keep their relative order. *)
Theorem debug_caller_loc_moves_to_front f line st :
  registry_ok st →
  ∃ d st',
    debug_caller_loc (Some f) line st = Ok d st' ∧
    ∀ s, d = Interned s →
         ∃ ls, head (root st') = Some ls ∧ str ls = s ∧
               filter (λ x, x ≠ ls) (root st') = filter (λ x, x ≠ ls) (root st).
Proof.
  intros Hok.
  destruct (returns_ok _ _ _ (debug_caller_loc_exact f line st Hok))
    as (d & st' & E & Hi & Hd).
  exists d, st'. split; [done|].
  intros s ->.
  destruct Hd as [(ls & Hin & Hs & _ & _ & _ & Hr)|(_ & n & _ & _ & _ & _ & _ & _ & _ & Hr)].
  - exists ls. destruct (decide (Some ls ≠ LIST_FIRST (root st))) as [Hne|He].
    + rewrite Hr. split; [done|]. split; [done|].
      rewrite filter_cons_False by (by intros H; apply H).
      by apply list_filter_filter_l.
    + apply dec_stable in He. rewrite Hr. done.
  - exists (LocStr n s). rewrite Hr. split; [done|]. split; [done|].
    by rewrite filter_cons_False by (by intros H; apply H).
Qed.

Lemma debug_caller_loc_moves_to_front_witness :
  ∃ d st',
    debug_caller_loc (Some (bs "g.c")) 7 (one_site_state []) = Ok d st' ∧
    ∀ s, d = Interned s →
         ∃ ls, head (root st') = Some ls ∧ str ls = s ∧
               filter (λ x, x ≠ ls) (root st') =
               filter (λ x, x ≠ ls) (root (one_site_state [])).
Proof.
  apply (debug_caller_loc_moves_to_front (bs "g.c") 7 (one_site_state [])).
  constructor; [|constructor]. eexists. vm_compute. reflexivity.
Defined.

Lemma fmap_NoDup_inj {A B} (g : A → B) (l : list A) x y :
  NoDup (g <$> l) → x ∈ l → y ∈ l → g x = g y → x = y.
Proof.
  induction l as [|a l IH]; csimpl; [by intros _ ?%elem_of_nil|].
  rewrite NoDup_cons. intros [Ha Hl].
  intros [->|Hx]%elem_of_cons [->|Hy]%elem_of_cons E; auto.
  - exfalso. apply Ha. rewrite E. by apply list_elem_of_fmap_2.
  - exfalso. apply Ha. rewrite <- E. by apply list_elem_of_fmap_2.
Qed.

(** X3.  The registry interns: when no two nodes hold the same string
    before a call, none do after it, and a descriptor other than the
    literal reads as [<basename>@<line>]. *)
Theorem debug_caller_loc_no_duplicates f line st :
  registry_ok st → NUL ∉ f → NoDup (registry_contents st) →
  ∃ d st',
    debug_caller_loc (Some f) line st = Ok d st' ∧
    NoDup (registry_contents st') ∧
    (d ≠ Unknown →
     descr_string st' d = Some (loc_string f line) ∧
     head (registry_contents st') = Some (Some (loc_string f line))).
Proof.
  intros Hok Hf Hnd. pose proof (loc_string_nul_free f line Hf) as Hnul.
  destruct (returns_ok _ _ _ (debug_caller_loc_exact f line st Hok))
    as (d & st' & E & Hi & Hd).
  exists d, st'. split; [done|].
  destruct d as [|s].
  { destruct Hd as (_ & _ & Hh & Hr). split; [|done].
    unfold registry_contents. by rewrite Hh, Hr. }
  destruct Hd as [(ls & Hin & Hs & Hc & Hh & _ & Hr)
                 |(Hall & n & Hn0 & Hs0 & Hns & Hn & Hs & Hh & _ & Hr)].
  - destruct (decide (Some ls ≠ LIST_FIRST (root st))) as [Hne|He].
    + unfold registry_contents, descr_string. rewrite Hh, Hr. csimpl.
      rewrite Hs. split; [|by rewrite Hc].
      apply NoDup_cons. split.
      * intros (x & Ex & [Hx Hxin]%list_elem_of_filter)%list_elem_of_fmap.
        apply Hx. apply (fmap_NoDup_inj _ _ _ _ Hnd); [done..|].
        by rewrite <- Ex, Hs.
      * eapply sublist_NoDup; [exact Hnd|].
        apply fmap_sublist, sublist_filter.
    + apply dec_stable in He. unfold registry_contents, descr_string.
      rewrite Hh, Hr. split; [done|]. intros _. split; [done|].
      unfold LIST_FIRST in He. destruct (root st); simplify_eq/=. by rewrite Hc.
  - assert (cstring_at (heap st') s = Some (loc_string f line)) as Hc.
    { unfold cstring_at. rewrite Hh, lookup_insert_eq. simpl.
      rewrite <- (app_nil_r (cstr _)). by apply cstring_of_cstr. }
    assert ((λ ls, cstring_at (heap st') (str ls)) <$> root st = registry_contents st)
      as Hold.
    { unfold registry_contents. apply list_fmap_ext. intros i x Hx.
      apply list_elem_of_lookup_2 in Hx.
      unfold registry_ok in Hok. rewrite Forall_forall in Hok.
      destruct (Hok _ Hx) as [t Ht]. unfold cstring_at in *.
      destruct (heap st !! str x) eqn:Ex; [|done].
      rewrite Hh, !lookup_insert_ne by congruence. by rewrite Ex. }
    unfold descr_string. split.
    2:{ intros _. split; [done|]. unfold registry_contents. rewrite Hr. csimpl.
        by rewrite Hc. }
    unfold registry_contents at 1. rewrite Hr. csimpl. rewrite Hc, Hold.
    apply NoDup_cons. split; [|done]. by apply registry_contents_unknown.
Qed.

Lemma debug_caller_loc_no_duplicates_witness :
  ∃ d st',
    debug_caller_loc (Some (bs "f.c")) 1 (one_site_state [true]) = Ok d st' ∧
    NoDup (registry_contents st') ∧
    (d ≠ Unknown →
     descr_string st' d = Some (loc_string (bs "f.c") 1) ∧
     head (registry_contents st') = Some (Some (loc_string (bs "f.c") 1))).
Proof.
  apply (debug_caller_loc_no_duplicates (bs "f.c") 1 (one_site_state [true])).
  - constructor; [|constructor]. eexists. vm_compute. reflexivity.
  - vm_compute. intros H. by repeat (inversion H as [|? ? ? H']; clear H; rename H' into H).
  - vm_compute. apply NoDup_singleton.
Defined.

(** X4.  A site that the registry holds is found whatever the allocator
    would do: the call returns its string, allocates nothing, consumes
    nothing of the allocator's future and leaves the heap as it is; the
    list keeps its nodes and does not grow. *)
Theorem debug_caller_loc_known_site f line st :
  registry_ok st → Some (loc_string f line) ∈ registry_contents st →
  ∃ s st',
    debug_caller_loc (Some f) line st = Ok (Interned s) st' ∧
    cstring_at (heap st') s = Some (loc_string f line) ∧
    heap st' = heap st ∧ fails st' = fails st ∧ inits st' = inits st ∧
    (∀ x, x ∈ root st' ↔ x ∈ root st) ∧
    (length (root st') ≤ length (root st))%nat.
Proof.
  intros Hok Hknown.
  destruct (returns_ok _ _ _ (debug_caller_loc_exact f line st Hok))
    as (d & st' & E & Hi & Hd).
  destruct d as [|s].
  { destruct Hd as (Hall & _). by apply registry_contents_unknown in Hall. }
  destruct Hd as [(ls & Hin & Hs & Hc & Hh & Hfl & Hr)|(Hall & _)].
  2:{ by apply registry_contents_unknown in Hall. }
  exists s, st'. split; [done|]. rewrite Hh. do 4 (split; [done|]).
  rewrite Hr. destruct (decide (Some ls ≠ LIST_FIRST (root st))) as [Hne|He]; [|done].
  split.
  - intros x. rewrite elem_of_cons, list_elem_of_filter.
    split; [by intros [->|[_ ?]] | intros Hx].
    destruct (decide (x = ls)); [by left | by right].
  - simpl. apply (length_filter_lt (λ x, x ≠ ls) (root st) ls Hin).
    by intros H; apply H.
Qed.

Lemma debug_caller_loc_known_site_witness :
  ∃ s st',
    debug_caller_loc (Some (bs "src/f.c")) 1 (one_site_state [true; true]) =
      Ok (Interned s) st' ∧
    cstring_at (heap st') s = Some (loc_string (bs "src/f.c") 1) ∧
    heap st' = heap (one_site_state [true; true]) ∧
    fails st' = fails (one_site_state [true; true]) ∧
    inits st' = inits (one_site_state [true; true]) ∧
    (∀ x, x ∈ root st' ↔ x ∈ root (one_site_state [true; true])) ∧
    (length (root st') ≤ length (root (one_site_state [true; true])))%nat.
Proof.
  apply (debug_caller_loc_known_site (bs "src/f.c") 1 (one_site_state [true; true])).
  - constructor; [|constructor]. eexists. vm_compute. reflexivity.
  - vm_compute. left.
Defined.

Lemma strrchr_None s c : c ∉ s → strrchr s c = None.
Proof.
  induction s as [|x s IH]; [done|].
  intros [Hx Hs]%not_elem_of_cons. simpl. rewrite IH by done.
  by rewrite decide_False by congruence.
Qed.

Lemma strrchr_last dir c base :
  c ∉ base → strrchr (dir ++ c :: base) c = Some (c :: base).
Proof.
  intros Hb. induction dir as [|x dir IH]; simpl.
  - rewrite strrchr_None by done. by rewrite decide_True.
  - by rewrite IH.
Qed.

(** X5.  Only the last path element of [file] counts: a call with
    [dir/base] and a call with [base] are the same call. *)
Theorem debug_caller_loc_basename dir base line st :
  "/"%byte ∉ base →
  debug_caller_loc (Some (dir ++ bs "/" ++ base)) line st =
  debug_caller_loc (Some base) line st.
Proof.
  intros Hb. unfold debug_caller_loc, loc_string.
  change (bs "/" ++ base) with ("/"%byte :: base).
  rewrite strrchr_last by done. by rewrite strrchr_None by done.
Qed.

Lemma debug_caller_loc_basename_witness :
  debug_caller_loc (Some (bs "../common-src" ++ bs "/" ++ bs "alloc.c")) 461
                   (one_site_state []) =
  debug_caller_loc (Some (bs "alloc.c")) 461 (one_site_state []).
Proof.
  apply (debug_caller_loc_basename (bs "../common-src") (bs "alloc.c") 461).
  vm_compute. intros H. by repeat (inversion H as [|? ? ? H']; clear H; rename H' into H).
Defined.

(** ** Nodes of the registry are never dropped *)





Lemma keeps_gets {A} (g : state → A) : keeps_nodes (gets g).
Proof. intros st b st' [= _ <-]. done. Qed.














(** ** The allocators that replace a buffer *)




Lemma owned_extends st st' old :
  extends st st' → owned st old → owned st' old.
Proof.
  intros Hext [->|[[b Hb] Hn]]; [by left | right]. split.
  - exists b. eapply lookup_weaken; [done | apply Hext].
  - eapply extends_not_str; [done | by eexists | done].
Qed.



(** The release of an owned pointer. *)
Lemma debug_amfree_owned file line old st (Q : unit → state → Prop) F :
  owned st old →
  Q tt (set_heap (if decide (old = 0) then heap st else delete old (heap st)) st) →
  returns (debug_amfree file line old) st Q F.
Proof.
  intros Hown HQ. unfold debug_amfree.
  destruct (decide (old = 0)) as [->|Hne].
  - unfold returns, ret. by rewrite set_heap_id in HQ.
  - destruct Hown as [->|[[b Hb] _]]; [done|].
    by eapply free_returns.
Qed.














(** ** Copies and extensions of strings *)

(** X10.  [debug_stralloc] is [strdup]: it returns a fresh block of
    [strlen + 1] cells that reads back as the string it was given, and
    changes no block that existed; a failed allocation ends in
    [errordump]. *)
Theorem debug_stralloc_copies f line s st :
  registry_ok st → NUL ∉ s → strlen s + 1 < SIZE_T_MOD →
  match debug_stralloc (Some f) line (Some s) st with
  | Ok p st' =>
      p ≠ 0 ∧ heap st !! p = None ∧
      cstring_at (heap st') p = Some s ∧
      (∃ blk, heap st' !! p = Some blk ∧ strlen s + 1 = Z.of_nat (length blk)) ∧
      (∀ q b, heap st !! q = Some b → heap st' !! q = Some b) ∧
      registry_ok st' ∧ (p ∉ str <$> root st')
  | Fatal e => e = AllocFailed f line (strlen s + 1) ∧ fails st ≠ []
  | Undefined => False
  end.
Proof.
  intros Hok Hs Hsz.
  pose proof (debug_stralloc_spec f line s st Hok Hsz) as H. unfold returns in H.
  destruct (debug_stralloc _ _ _ _) as [p st'|e|]; [|done..].
  destruct H as (Hp0 & Hfresh & Hp & Hok' & Hext & Hstr).
  split; [done|]. split; [done|]. split.
  { unfold cstring_at. rewrite Hp. simpl.
    rewrite <- (app_nil_r (cstr s)). by apply cstring_of_cstr. }
  split.
  { eexists. split; [done|]. rewrite length_cstr. unfold strlen. lia. }
  split; [|done].
  intros q b Hq. eapply lookup_weaken; [exact Hq | apply Hext].
Qed.

Lemma debug_stralloc_copies_witness :
  match debug_stralloc (Some (bs "f.c")) 9 (Some (bs "TZ=UTC")) (hello_state [false; true]) with
  | Ok p st' =>
      p ≠ 0 ∧ heap (hello_state [false; true]) !! p = None ∧
      cstring_at (heap st') p = Some (bs "TZ=UTC") ∧
      (∃ blk, heap st' !! p = Some blk ∧
              strlen (bs "TZ=UTC") + 1 = Z.of_nat (length blk)) ∧
      (∀ q b, heap (hello_state [false; true]) !! q = Some b → heap st' !! q = Some b) ∧
      registry_ok st' ∧ (p ∉ str <$> root st')
  | Fatal e => e = AllocFailed (bs "f.c") 9 (strlen (bs "TZ=UTC") + 1) ∧
               fails (hello_state [false; true]) ≠ []
  | Undefined => False
  end.
Proof.
  apply (debug_stralloc_copies (bs "f.c") 9 (bs "TZ=UTC") (hello_state [false; true])).
  - constructor.
  - vm_compute. intros H. by repeat (inversion H as [|? ? ? H']; clear H; rename H' into H).
  - by vm_compute.
Defined.

Lemma string_handle_owned st p s : string_handle st p s → owned st p.
Proof.
  unfold string_handle, owned. destruct (decide (p = 0)) as [->|Hne]; [by left|].
  intros [Hc Hn]. right. split; [|done].
  unfold cstring_at in Hc. destruct (heap st !! p); [by eexists | done].
Qed.

(** The state after the release of [old] that follows an allocation. *)
Lemma release_after st st2 old p blk :
  registry_ok st2 → extends st st2 → owned st old →
  p ≠ 0 → heap st !! p = None → heap st2 !! p = Some blk →
  p ∉ str <$> root st2 →
  replaces st old True blk p
    (set_heap (if decide (old = 0) then heap st2 else delete old (heap st2)) st2).
Proof.
  intros Hok2 Hext2 Hown Hp0 Hfresh Hp2 Hstr2.
  pose proof (owned_extends _ _ _ Hext2 Hown) as Hown2.
  assert (p ≠ old) as Hpold.
  { destruct Hown as [->|[[b Hb] _]]; [done | congruence]. }
  set (st3 := set_heap _ st2).
  assert (∀ q, q ≠ old ∨ q ∈ str <$> root st2 → heap st3 !! q = heap st2 !! q) as Hsame.
  { intros q Hq. subst st3. simpl_state.
    destruct (decide (old = 0)) as [->|Hne]; [done|].
    apply lookup_delete_ne. destruct Hown2 as [->|[_ Hn]]; [done|].
    destruct Hq as [Hq|Hq]; congruence. }
  split; [done|]. split; [done|]. split; [done|]. split.
  { rewrite Hsame; [done | by left]. }
  split.
  { eapply registry_ok_agree; [exact Hok2 | done |]. intros q Hq. apply Hsame. by right. }
  split; [done|]. split; [apply Hext2|]. split.
  { intros q b Hq Hb. rewrite Hsame by (by left).
    eapply lookup_weaken; [exact Hb | apply Hext2]. }
  split; [apply Hext2|].
  intros _ Hold. subst st3. simpl_state. rewrite decide_False by done.
  apply lookup_delete_eq.
Qed.

Lemma debug_vstrextend_spec f line oldstr s ap st :
  registry_ok st → string_handle st oldstr s →
  strlen s + total_length ap + 1 < SIZE_T_MOD →
  returns (debug_vstrextend (Some f) line oldstr ap) st
    (λ p st',
       1 + Z.of_nat (length (nonempty_args ap)) ≤ MAX_VSTRALLOC_ARGS ∧
       replaces st oldstr True (cstr (s ++ concat ap)) p st')
    (λ e,
       (e = TooManyArgs f line MAX_VSTRALLOC_ARGS ∧
        MAX_VSTRALLOC_ARGS < 1 + Z.of_nat (length (nonempty_args ap))) ∨
       (e = AllocFailed f line (strlen s + total_length ap + 1) ∧ fails st ≠ [])).
Proof.
  intros Hok Hh Hsz. pose proof (string_handle_owned _ _ _ Hh) as Hown.
  unfold debug_vstrextend. apply returns_bind.
  eapply (returns_step _ _ s st).
  { unfold string_handle in Hh. destruct (decide (oldstr = 0)) as [->|Hne].
    - by subst s.
    - destruct Hh as [Hc _]. unfold read_string. by rewrite Hc. }
  apply returns_bind.
  eapply returns_mono; [by apply internal_vstralloc_spec | | ].
  2:{ intros e [[-> Hn]|(-> & Hfl & _)]; [by left | by right]. }
  intros p st2 (Hn & Hp0 & Hfresh & Hp2 & Hok2 & Hext2 & Hstr2). cbn beta.
  apply returns_bind, debug_amfree_owned; [by eapply owned_extends|].
  unfold returns, ret. split; [done|]. by apply release_after.
Qed.

(** X11.  [debug_vstrextend] reads a null handle as the empty string and
    otherwise the string at the handle; it returns a fresh block, distinct
    from the handle, that holds that string followed by the arguments in
    order and one terminator; it releases the block of the handle and
    changes no other block.  It ends in [errordump] for too many arguments
    or a failed allocation, and then nothing is released. *)
Theorem debug_vstrextend_appends f line oldstr s ap st :
  registry_ok st → string_handle st oldstr s →
  strlen s + total_length ap + 1 < SIZE_T_MOD →
  match debug_vstrextend (Some f) line oldstr ap st with
  | Ok p st' =>
      p ≠ 0 ∧ p ≠ oldstr ∧ heap st !! p = None ∧
      heap st' !! p = Some (cstr (s ++ concat ap)) ∧
      (oldstr ≠ 0 → heap st' !! oldstr = None) ∧
      (∀ q b, q ≠ oldstr → heap st !! q = Some b → heap st' !! q = Some b) ∧
      registry_ok st'
  | Fatal e =>
      (e = TooManyArgs f line MAX_VSTRALLOC_ARGS ∧
       MAX_VSTRALLOC_ARGS < 1 + Z.of_nat (length (nonempty_args ap))) ∨
      (e = AllocFailed f line (strlen s + total_length ap + 1) ∧ fails st ≠ [])
  | Undefined => False
  end.
Proof.
  intros Hok Hh Hsz.
  pose proof (debug_vstrextend_spec f line oldstr s ap st Hok Hh Hsz) as H.
  unfold returns in H.
  destruct (debug_vstrextend _ _ _ _ _) as [p st'|e|]; [|done..].
  destruct H as (_ & Hp0 & Hpold & Hfresh & Hp & Hok' & _ & _ & Hframe & _ & Hrel).
  do 4 (split; [done|]). split; [by apply Hrel|]. done.
Qed.

Lemma debug_vstrextend_appends_witness :
  match debug_vstrextend (Some (bs "f.c")) 4 5 [bs ", "; bs "world"] (hello_state []) with
  | Ok p st' =>
      p ≠ 0 ∧ p ≠ 5 ∧ heap (hello_state []) !! p = None ∧
      heap st' !! p = Some (cstr (bs "hello" ++ concat [bs ", "; bs "world"])) ∧
      (5 ≠ 0 → heap st' !! 5 = None) ∧
      (∀ q b, q ≠ 5 → heap (hello_state []) !! q = Some b → heap st' !! q = Some b) ∧
      registry_ok st'
  | Fatal e =>
      (e = TooManyArgs (bs "f.c") 4 MAX_VSTRALLOC_ARGS ∧
       MAX_VSTRALLOC_ARGS < 1 + Z.of_nat (length (nonempty_args [bs ", "; bs "world"]))) ∨
      (e = AllocFailed (bs "f.c") 4
             (strlen (bs "hello") + total_length [bs ", "; bs "world"] + 1) ∧
       fails (hello_state []) ≠ [])
  | Undefined => False
  end.
Proof.
  apply (debug_vstrextend_appends (bs "f.c") 4 5 (bs "hello") [bs ", "; bs "world"]
           (hello_state [])).
  - constructor.
  - unfold string_handle. rewrite decide_False by done.
    split; [by vm_compute | apply not_elem_of_nil].
  - by vm_compute.
Defined.

(** X12.  Two extensions in a row give the string of one extension by both
    argument lists: the handle that the first call returns is a valid
    handle for the second, and the blocks of the caller other than the
    first handle's are unchanged throughout. *)
Theorem debug_vstrextend_twice f line oldstr s ap1 ap2 st :
  registry_ok st → string_handle st oldstr s →
  NUL ∉ s ++ concat ap1 →
  strlen s + total_length ap1 + total_length ap2 + 1 < SIZE_T_MOD →
  match (let* p1 := debug_vstrextend (Some f) line oldstr ap1 in
         debug_vstrextend (Some f) line p1 ap2) st with
  | Ok p st' =>
      p ≠ 0 ∧
      heap st' !! p = Some (cstr (s ++ concat (ap1 ++ ap2))) ∧
      (∀ q b, q ≠ oldstr → heap st !! q = Some b → heap st' !! q = Some b) ∧
      registry_ok st'
  | Fatal e =>
      (e = TooManyArgs f line MAX_VSTRALLOC_ARGS ∧
       (MAX_VSTRALLOC_ARGS < 1 + Z.of_nat (length (nonempty_args ap1)) ∨
        MAX_VSTRALLOC_ARGS < 1 + Z.of_nat (length (nonempty_args ap2)))) ∨
      ((e = AllocFailed f line (strlen s + total_length ap1 + 1) ∨
        e = AllocFailed f line (strlen s + total_length ap1 + total_length ap2 + 1)) ∧
       fails st ≠ [])
  | Undefined => False
  end.
Proof.
  intros Hok Hh Hnul Hsz.
  pose proof (total_length_nonneg ap1) as Hn1.
  pose proof (total_length_nonneg ap2) as Hn2.
  change (match ?m st with Ok p st' => @?Q p st' | Fatal e => @?F e | Undefined => False end)
    with (returns m st Q F).
  apply returns_bind.
  eapply returns_mono; [apply (debug_vstrextend_spec f line oldstr s ap1 st); [done | done | lia] | | ].
  2:{ intros e [[-> Hn]|[-> Hfl]]; [left | right]; (split; [by try left | by try left]). }
  intros p1 st1 (_ & Hp0 & Hpold & Hfresh & Hp1 & Hok1 & Hstr1 & _ & Hframe1 & Hfl1 & _).
  cbn beta.
  assert (string_handle st1 p1 (s ++ concat ap1)) as Hh1.
  { unfold string_handle. rewrite decide_False by done. split; [|done].
    unfold cstring_at. rewrite Hp1. simpl.
    rewrite <- (app_nil_r (cstr _)). by apply cstring_of_cstr. }
  assert (strlen (s ++ concat ap1) = strlen s + total_length ap1) as Hlen.
  { rewrite total_length_concat. unfold strlen. rewrite length_app. lia. }
  eapply returns_mono;
    [apply (debug_vstrextend_spec f line p1 (s ++ concat ap1) ap2 st1); [done | done | lia] | | ].
  - intros p st' (_ & Hp0' & _ & _ & Hp & Hok' & _ & _ & Hframe & _).
    split; [done|]. split.
    { by rewrite concat_app, app_assoc. }
    split; [|done].
    intros q b Hq Hb. apply Hframe; [congruence | by apply Hframe1].
  - intros e [[-> Hn]|[-> Hfl]]; [left | right].
    + split; [done | by right].
    + rewrite Hlen. split; [by right|]. intros E. by apply Hfl, Hfl1.
Qed.

Lemma debug_vstrextend_twice_witness :
  match (let* p1 := debug_vstrextend (Some (bs "f.c")) 4 0 [bs "a"; bs ""] in
         debug_vstrextend (Some (bs "f.c")) 4 p1 [bs "b"]) (hello_state []) with
  | Ok p st' =>
      p ≠ 0 ∧
      heap st' !! p = Some (cstr ([] ++ concat ([bs "a"; bs ""] ++ [bs "b"]))) ∧
      (∀ q b, q ≠ 0 → heap (hello_state []) !! q = Some b → heap st' !! q = Some b) ∧
      registry_ok st'
  | Fatal e =>
      (e = TooManyArgs (bs "f.c") 4 MAX_VSTRALLOC_ARGS ∧
       (MAX_VSTRALLOC_ARGS < 1 + Z.of_nat (length (nonempty_args [bs "a"; bs ""])) ∨
        MAX_VSTRALLOC_ARGS < 1 + Z.of_nat (length (nonempty_args [bs "b"])))) ∨
      ((e = AllocFailed (bs "f.c") 4 (strlen [] + total_length [bs "a"; bs ""] + 1) ∨
        e = AllocFailed (bs "f.c") 4
              (strlen [] + total_length [bs "a"; bs ""] + total_length [bs "b"] + 1)) ∧
       fails (hello_state []) ≠ [])
  | Undefined => False
  end.
Proof.
  apply (debug_vstrextend_twice (bs "f.c") 4 0 [] [bs "a"; bs ""] [bs "b"] (hello_state [])).
  - constructor.
  - done.
  - vm_compute. intros H. by repeat (inversion H as [|? ? ? H']; clear H; rename H' into H).
  - by vm_compute.
Defined.

(** ** The bracketing of an allocation *)

Lemma caller_loc_hit f line st :
  registry_ok st → Some (loc_string f line) ∈ registry_contents st →
  ∃ s st',
    debug_caller_loc (Some f) line st = Ok (Interned s) st' ∧
    heap st' = heap st ∧ fails st' = fails st ∧ inits st' = inits st ∧
    (∀ x, x ∈ root st' ↔ x ∈ root st).
Proof.
  intros Hok Hknown.
  destruct (returns_ok _ _ _ (debug_caller_loc_exact f line st Hok))
    as (d & st' & E & Hi & Hd).
  destruct d as [|s].
  { destruct Hd as (Hall & _). by apply registry_contents_unknown in Hall. }
  destruct Hd as [(ls & Hin & Hs & Hc & Hh & Hfl & Hr)|(Hall & _)].
  2:{ by apply registry_contents_unknown in Hall. }
  exists s, st'. do 4 (split; [done|]).
  rewrite Hr. destruct (decide (Some ls ≠ LIST_FIRST (root st))) as [Hne|He]; [|done].
  intros x. rewrite elem_of_cons, list_elem_of_filter.
  split; [by intros [->|[_ ?]] | intros Hx].
  destruct (decide (x = ls)); [by left | by right].
Qed.

Lemma registry_same st st' :
  heap st ⊆ heap st' → (∀ x, x ∈ root st' ↔ x ∈ root st) →
  registry_ok st →
  registry_ok st' ∧
  ∀ loc, Some loc ∈ registry_contents st → Some loc ∈ registry_contents st'.
Proof.
  intros Hh Hr Hok. split.
  - unfold registry_ok in *. rewrite Forall_forall in *.
    intros x Hx%Hr. destruct (Hok x Hx) as [t Ht]. exists t.
    by eapply cstring_at_mono.
  - intros loc (ls & Hls & Hc)%registry_contents_known.
    apply registry_contents_known. exists ls. split; [by apply Hr|].
    by eapply cstring_at_mono.
Qed.

(** X13.  Once the call site is in the registry, the bracketing of
    [debug_alloc] is transparent: the call is one request of
    [max(size, 1)] bytes to the platform allocator and the test of its
    answer.  It consumes exactly one answer of the allocator, adds exactly
    one block to the heap, keeps the nodes of the registry, and ends in
    [errordump] exactly when that one answer is NULL. *)
Theorem debug_alloc_transparent f line size st :
  registry_ok st → Some (loc_string f line) ∈ registry_contents st →
  match debug_alloc (Some f) line size st with
  | Ok p st' =>
      head (fails st) ≠ Some true ∧ p ≠ 0 ∧ heap st !! p = None ∧
      heap st' = <[p := replicate (Z.to_nat (max size 1)) Undef]> (heap st) ∧
      fails st' = tail (fails st) ∧ inits st' = inits st ∧
      (∀ x, x ∈ root st' ↔ x ∈ root st)
  | Fatal e => head (fails st) = Some true ∧ e = AllocFailed f line size
  | Undefined => False
  end.
Proof.
  intros Hok Hk.
  destruct (caller_loc_hit f line st Hok Hk) as (s & st1 & E1 & Hh1 & Hf1 & Hi1 & Hr1).
  destruct (registry_same st st1) as [Hok1 _]; [by rewrite Hh1 | done | done |].
  unfold debug_alloc, bind at 1. rewrite E1.
  unfold bind at 1, malloc_enter at 1, ret at 1.
  unfold bind at 1, malloc. rewrite Hf1, Hh1.
  destruct (fresh_addr_spec (heap st)) as [Hp0 Hp].
  set (p := fresh_addr (heap st)) in *.
  assert (∀ fl, fails st = fl → head fl ≠ Some true →
            match (if decide (p = 0)
                   then errordump (AllocFailed (default (bs "(unknown)") (Some f))
                                     (if non_null (Some f) then line else -1) size)
                   else let* loc := debug_caller_loc (Some f) line in
                        do* malloc_leave loc in ret p)
                    (State (<[p := replicate (Z.to_nat (max size 1)) Undef]> (heap st))
                           (tail fl) (root st1) (inits st1)) with
            | Ok p0 st' =>
                head (fails st) ≠ Some true ∧ p0 ≠ 0 ∧ heap st !! p0 = None ∧
                heap st' = <[p0 := replicate (Z.to_nat (max size 1)) Undef]> (heap st) ∧
                fails st' = tail (fails st) ∧ inits st' = inits st ∧
                (∀ x, x ∈ root st' ↔ x ∈ root st)
            | Fatal e => head (fails st) = Some true ∧ e = AllocFailed f line size
            | Undefined => False
            end) as Hgo.
  { intros fl Efl Hhd. rewrite decide_False by done.
    set (st2 := State _ _ _ _).
    destruct (registry_same st st2) as [Hok2 Hk2];
      [by apply insert_subseteq | done | done |].
    destruct (caller_loc_hit f line st2 Hok2 (Hk2 _ Hk))
      as (s' & st3 & E3 & Hh3 & Hf3 & Hi3 & Hr3).
    unfold bind at 1. rewrite E3. unfold bind, malloc_leave, ret.
    rewrite Efl. split; [done|]. split; [done|]. split; [done|].
    split; [done|]. split; [done|]. split; [by rewrite Hi3|].
    intros x. by rewrite Hr3. }
  destruct (fails st) as [|[] fl] eqn:Efl.
  - by apply (Hgo []).
  - rewrite decide_True by done. done.
  - by apply (Hgo (false :: fl)).
Qed.

Lemma debug_alloc_transparent_witness :
  match debug_alloc (Some (bs "f.c")) 1 0 (one_site_state [false; true]) with
  | Ok p st' =>
      head (fails (one_site_state [false; true])) ≠ Some true ∧ p ≠ 0 ∧
      heap (one_site_state [false; true]) !! p = None ∧
      heap st' = <[p := replicate (Z.to_nat (max 0 1)) Undef]>
                   (heap (one_site_state [false; true])) ∧
      fails st' = tail (fails (one_site_state [false; true])) ∧
      inits st' = inits (one_site_state [false; true]) ∧
      (∀ x, x ∈ root st' ↔ x ∈ root (one_site_state [false; true]))
  | Fatal e => head (fails (one_site_state [false; true])) = Some true ∧
               e = AllocFailed (bs "f.c") 1 0
  | Undefined => False
  end.
Proof.
  apply (debug_alloc_transparent (bs "f.c") 1 0 (one_site_state [false; true])).
  - constructor; [|constructor]. eexists. vm_compute. reflexivity.
  - vm_compute. left.
Defined.

(** ** Growth of a table *)

(** X14.  A growth always moves the table: the handle that
    [debug_amtable_alloc] returns is a fresh block, distinct from the old
    handle, of exactly [capacity * elsize] bytes, and the old region is
    released, so that a pointer into the old table dangles.  The new handle
    and capacity are a table for the next call; the other blocks of the
    caller are unchanged. *)
Theorem debug_amtable_alloc_moves
    f line table current elsize count bump init_func old st :
  registry_ok st →
  table_ok st table current elsize old →
  0 ≤ current ≤ count → 0 < elsize → 0 < bump →
  count + bump < SIZE_T_MOD →
  grown_capacity count bump * elsize < SIZE_T_MOD →
  init_ok init_func →
  match debug_amtable_alloc (Some f) line table current elsize count bump init_func st with
  | Ok (_, table', capacity) st' =>
      table' ≠ 0 ∧ table' ≠ table ∧ heap st !! table' = None ∧
      (table ≠ 0 → heap st' !! table = None) ∧
      (∃ blk, table_ok st' table' capacity elsize blk ∧
              Z.of_nat (length blk) = capacity * elsize) ∧
      (∀ q b, q ≠ table → heap st !! q = Some b → heap st' !! q = Some b) ∧
      registry_ok st'
  | Fatal e =>
      e = AllocFailed f line (grown_capacity count bump * elsize) ∧ fails st ≠ []
  | Undefined => False
  end.
Proof.
  intros Hok Htab Hcur Hes Hbump Hcb Hfit Hinit.
  pose proof (debug_amtable_alloc_spec f line table current elsize count bump
                init_func old st Hok Htab Hcur Hes Hbump Hcb Hfit Hinit) as H.
  unfold returns in H.
  destruct (debug_amtable_alloc _ _ _ _ _ _ _ _ _) as [[[r t] c] st'|e|]; [|done..].
  destruct H as (t' & [= -> -> ->] & Ht0 & Hblk & _ & Hrel & Hok' & Hstr & Hfresh & Hframe & _).
  destruct (grown_capacity_gt count bump Hbump) as [Hgt _].
  pose proof (table_ok_length _ _ _ _ _ Htab Hes) as Hold.
  pose proof (length_grown_block init_func elsize current (grown_capacity count bump) old
                Hes Hinit ltac:(lia) Hold) as Hlen.
  split; [done|]. split.
  { intros ->. unfold table_ok in Htab. rewrite decide_False in Htab by done.
    destruct Htab as [Ht _]. congruence. }
  split; [done|]. split; [done|]. split; [|done].
  eexists. split; [|exact Hlen].
  unfold table_ok. rewrite decide_False by done. split; [done|]. split; [lia | done].
Qed.

Lemma debug_amtable_alloc_moves_witness :
  match debug_amtable_alloc (Some (bs "f.c")) 1 7 3 4 3 8 None three_ints_state with
  | Ok (_, table', capacity) st' =>
      table' ≠ 0 ∧ table' ≠ 7 ∧ heap three_ints_state !! table' = None ∧
      (7 ≠ 0 → heap st' !! 7 = None) ∧
      (∃ blk, table_ok st' table' capacity 4 blk ∧
              Z.of_nat (length blk) = capacity * 4) ∧
      (∀ q b, q ≠ 7 → heap three_ints_state !! q = Some b → heap st' !! q = Some b) ∧
      registry_ok st'
  | Fatal e =>
      e = AllocFailed (bs "f.c") 1 (grown_capacity 3 8 * 4) ∧ fails three_ints_state ≠ []
  | Undefined => False
  end.
Proof.
  apply (debug_amtable_alloc_moves (bs "f.c") 1 7 3 4 3 8 None three_ints three_ints_state).
  - constructor.
  - unfold table_ok. rewrite decide_False by done.
    split; [reflexivity|]. split; [by vm_compute | apply not_elem_of_nil].
  - lia.
  - lia.
  - lia.
  - reflexivity.
  - reflexivity.
  - done.
Defined.

Lemma grown_capacity_mono count1 count2 bump :
  0 < bump → count2 < grown_capacity count1 bump →
  grown_capacity count2 bump ≤ grown_capacity count1 bump.
Proof.
  intros Hb Hlt. apply grown_capacity_least; [done | | done].
  apply grown_capacity_multiple.
Qed.

(** X15.  Two growths in a row give the table of one growth to the larger
    capacity: the elements that the first growth added, as their
    initializer left them, are kept by the second and not initialized
    again, and a second call that asks for an index below the capacity
    changes nothing. *)
Theorem debug_amtable_alloc_twice
    f line table current elsize count1 count2 bump init_func old st :
  registry_ok st →
  table_ok st table current elsize old →
  0 ≤ current ≤ count1 → 0 ≤ count2 → 0 < elsize → 0 < bump →
  count1 + bump < SIZE_T_MOD → count2 + bump < SIZE_T_MOD →
  grown_capacity count1 bump * elsize < SIZE_T_MOD →
  grown_capacity count2 bump * elsize < SIZE_T_MOD →
  init_ok init_func →
  match (let* r := debug_amtable_alloc (Some f) line table current elsize count1 bump
                     init_func in
         debug_amtable_alloc (Some f) line r.1.2 r.2 elsize count2 bump init_func) st with
  | Ok (_, table', capacity) st' =>
      capacity = Z.max (grown_capacity count1 bump) (grown_capacity count2 bump) ∧
      heap st' !! table' =
        Some (take (Z.to_nat (current * elsize)) old ++
              concat (replicate (Z.to_nat (capacity - current))
                        (new_element init_func elsize))) ∧
      (∀ q b, q ≠ table → heap st !! q = Some b → heap st' !! q = Some b) ∧
      registry_ok st'
  | Fatal e =>
      (e = AllocFailed f line (grown_capacity count1 bump * elsize) ∨
       e = AllocFailed f line (grown_capacity count2 bump * elsize)) ∧ fails st ≠ []
  | Undefined => False
  end.
Proof.
  intros Hok Htab Hcur Hc2 Hes Hbump Hcb1 Hcb2 Hfit1 Hfit2 Hinit.
  destruct (grown_capacity_gt count1 bump Hbump) as [Hgt1 _].
  destruct (grown_capacity_gt count2 bump Hbump) as [Hgt2 _].
  pose proof (table_ok_length _ _ _ _ _ Htab Hes) as Hold.
  set (N1 := grown_capacity count1 bump) in *.
  set (N2 := grown_capacity count2 bump) in *.
  pose proof (debug_amtable_alloc_spec f line table current elsize count1 bump
                init_func old st Hok Htab Hcur Hes Hbump Hcb1 Hfit1 Hinit) as H.
  unfold returns in H. unfold bind.
  destruct (debug_amtable_alloc _ _ _ _ _ _ _ _ _) as [[[r t] c] st1|e|];
    [|by destruct H; split; [left|] | done].
  destruct H as (t1 & [= -> -> ->] & Ht0 & Hblk & _ & _ & Hok1 & Hstr & Hfresh & Hframe & Hfl).
  fold N1 in Hblk. cbn [fst snd].
  set (blk1 := take _ old ++ _) in Hblk.
  pose proof (length_grown_block init_func elsize current N1 old
                Hes Hinit ltac:(lia) Hold) as Hlen1.
  fold blk1 in Hlen1.
  destruct (decide (count2 < N1)) as [Hlt|Hge].
  - (* the second call asks for nothing new *)
    unfold debug_amtable_alloc. rewrite decide_False by lia. unfold ret.
    pose proof (grown_capacity_mono count1 count2 bump Hbump Hlt).
    split; [fold N2; lia|]. done.
  - assert (table_ok st1 t1 N1 elsize blk1) as Htab1.
    { unfold table_ok. rewrite decide_False by done. split; [done|]. split; [lia | done]. }
    pose proof (debug_amtable_alloc_spec f line t1 N1 elsize count2 bump
                  init_func blk1 st1 Hok1 Htab1 ltac:(lia) Hes Hbump Hcb2 Hfit2 Hinit) as H.
    unfold returns in H.
    destruct (debug_amtable_alloc _ _ _ _ _ _ _ _ _) as [[[r t] c] st2|e|]; [| |done].
    2:{ destruct H as [-> H]. split; [by right|]. intros E. by apply H, Hfl. }
    destruct H as (t2 & [= -> -> ->] & _ & Hblk2 & _ & _ & Hok2 & _ & _ & Hframe2 & _).
    fold N2 in Hblk2 |- *.
    split; [lia|]. split; [|split; [|done]].
    + rewrite Hblk2. f_equal.
      rewrite take_ge by lia. subst blk1. rewrite <- app_assoc. f_equal.
      rewrite <- concat_app, <- replicate_add. do 2 f_equal. lia.
    + intros q b Hq Hb. apply Hframe2; [congruence | by apply Hframe].
Qed.

Lemma debug_amtable_alloc_twice_witness :
  match (let* r := debug_amtable_alloc (Some (bs "f.c")) 1 7 3 4 3 8 None in
         debug_amtable_alloc (Some (bs "f.c")) 1 r.1.2 r.2 4 20 8 None) three_ints_state with
  | Ok (_, table', capacity) st' =>
      capacity = Z.max (grown_capacity 3 8) (grown_capacity 20 8) ∧
      heap st' !! table' =
        Some (take (Z.to_nat (3 * 4)) three_ints ++
              concat (replicate (Z.to_nat (capacity - 3)) (new_element None 4))) ∧
      (∀ q b, q ≠ 7 → heap three_ints_state !! q = Some b → heap st' !! q = Some b) ∧
      registry_ok st'
  | Fatal e =>
      (e = AllocFailed (bs "f.c") 1 (grown_capacity 3 8 * 4) ∨
       e = AllocFailed (bs "f.c") 1 (grown_capacity 20 8 * 4)) ∧
      fails three_ints_state ≠ []
  | Undefined => False
  end.
Proof.
  apply (debug_amtable_alloc_twice (bs "f.c") 1 7 3 4 3 20 8 None three_ints
           three_ints_state).
  - constructor.
  - unfold table_ok. rewrite decide_False by done.
    split; [reflexivity|]. split; [by vm_compute | apply not_elem_of_nil].
  - lia.
  - lia.
  - lia.
  - lia.
  - reflexivity.
  - reflexivity.
  - reflexivity.
  - reflexivity.
  - done.
Defined.

(** ** The entries that safe_env passes on *)

Lemma safe_env_list_names CY NP name :
  name ∈ safe_env_list CY NP → ("="%byte ∉ name) ∧ ¬ locale_name name.
Proof.
  intros Hin. unfold safe_env_list in Hin.
  destruct CY, NP; cbn [app] in Hin;
    repeat (apply elem_of_cons in Hin as [->|Hin]);
    try (by apply elem_of_nil in Hin);
    (split; [apply (bool_decide_unpack _); by vm_compute
            |apply (bool_decide_unpack _); by vm_compute]).
Qed.

Lemma allowed_entries_safe CY NP env e :
  e ∈ allowed_entries env (safe_env_list CY NP) →
  e ∈ env ∧ ¬ locale_name (env_name e).
Proof.
  unfold allowed_entries. rewrite list_elem_of_omap.
  intros (name & Hname & Hget).
  destruct (getenv env name) as [v|] eqn:Ev; [|done].
  injection Hget as <-.
  destruct (safe_env_list_names _ _ _ Hname) as [Heq Hloc].
  split; [by apply getenv_Some|].
  change (bs "=" ++ v) with ("="%byte :: v).
  assert (env_name (name ++ "="%byte :: v) = name) as ->; [|done].
  apply (env_name_eq name); [done|].
  rewrite (cons_middle _ name v), app_assoc.
  rewrite take_app_length'; [done|]. rewrite length_app. simpl. lia.
Qed.

(** X16.  Whatever the branch and whatever the allocator does, a list that
    [safe_env] returns holds only entries of [environ], none of them a
    locale variable ([LANG] or [LC_...]); and only with matching real and
    effective identifiers can a failed allocation end the call in
    [errordump]. *)
Theorem safe_env_only_safe CY NP pr st :
  registry_ok st →
  Forall entry_ok (environ pr) →
  Z.of_nat (length (environ pr)) < INT_MAX →
  match safe_env CY NP pr st with
  | Ok envp st' =>
      ∃ l, read_env st' envp = Some l ∧
           Forall (λ e, e ∈ environ pr ∧ ¬ locale_name (env_name e)) l
  | Fatal e => (uid pr = euid pr ∧ gid pr = egid pr) ∧ fails st ≠ []
  | Undefined => False
  end.
Proof.
  intros Hok Henv Hlen.
  destruct (decide (uid pr = euid pr ∧ gid pr = egid pr)) as [Hids|Hids].
  - pose proof (safe_env_unrestricted CY NP pr st Hids Hok Henv Hlen) as H.
    unfold returns in H. destruct (safe_env CY NP pr st) as [envp st'| |]; [|done..].
    destruct H as [H|[-> H]].
    + eexists. split; [exact H|]. unfold kept_entries.
      apply Forall_forall. intros e [Hloc Hin]%list_elem_of_filter. done.
    + exists []. split; [done | constructor].
  - destruct (safe_env_restricted CY NP pr st Hids Henv)
      as (envp & st' & built & -> & Hread & [k Hk] & _).
    exists built. split; [done|].
    apply Forall_forall. intros e He.
    apply (allowed_entries_safe CY NP). rewrite Hk. apply elem_of_app. by left.
Qed.

Lemma safe_env_only_safe_witness :
  match safe_env false true (example_process true) (init_state [false; false; true]) with
  | Ok envp st' =>
      ∃ l, read_env st' envp = Some l ∧
           Forall (λ e, e ∈ environ (example_process true) ∧ ¬ locale_name (env_name e)) l
  | Fatal e =>
      (uid (example_process true) = euid (example_process true) ∧
       gid (example_process true) = egid (example_process true)) ∧
      fails (init_state [false; false; true]) ≠ []
  | Undefined => False
  end.
Proof.
  apply (safe_env_only_safe false true (example_process true)
           (init_state [false; false; true])).
  - constructor.
  - apply (bool_decide_unpack _). by vm_compute.
  - by vm_compute.
Defined.

(** ** Null strings and renderings that do not fit an int *)

Lemma caller_loc_returns f line st :
  registry_ok st →
  ∃ d st1, debug_caller_loc (Some f) line st = Ok d st1 ∧ registry_ok st1.
Proof.
  intros Hok.
  destruct (returns_ok _ _ _ (debug_caller_loc_spec f line st Hok))
    as (d & st1 & E & Hok1 & _).
  by exists d, st1.
Qed.

(** X17.  A null string: [internal_vstralloc] tests for it, so that
    [debug_vstralloc] and [debug_newvstralloc] end in [errordump] with the
    message of the null string (and the old buffer is not released before);
    [debug_stralloc] and [debug_newstralloc] do not test, and take the
    length of the null pointer. *)
Theorem null_string_edges f line old argp st :
  registry_ok st →
  debug_vstralloc (Some f) line None argp st = Fatal StrIsNull ∧
  debug_newvstralloc (Some f) line old None argp st = Fatal StrIsNull ∧
  debug_stralloc (Some f) line None st = Undefined ∧
  debug_newstralloc (Some f) line old None st = Undefined.
Proof.
  intros Hok.
  destruct (caller_loc_returns f line st Hok) as (d & st1 & E & Hok1).
  destruct (caller_loc_returns f line st1 Hok1) as (d' & st2 & E' & _).
  assert (debug_stralloc (Some f) line None st1 = Undefined) as Hs1.
  { unfold debug_stralloc, bind. by rewrite E'. }
  unfold debug_vstralloc, debug_newvstralloc, debug_newstralloc.
  split; [|split; [|split]].
  - unfold bind. by rewrite E.
  - unfold bind. by rewrite E.
  - unfold debug_stralloc, bind. by rewrite E.
  - unfold bind. rewrite E. unfold malloc_enter, ret. by rewrite Hs1.
Qed.

Lemma null_string_edges_witness :
  debug_vstralloc (Some (bs "f.c")) 2 None [bs "x"] (hello_state []) = Fatal StrIsNull ∧
  debug_newvstralloc (Some (bs "f.c")) 2 5 None [bs "x"] (hello_state []) = Fatal StrIsNull ∧
  debug_stralloc (Some (bs "f.c")) 2 None (hello_state []) = Undefined ∧
  debug_newstralloc (Some (bs "f.c")) 2 5 None (hello_state []) = Undefined.
Proof.
  apply (null_string_edges (bs "f.c") 2 5 [bs "x"] (hello_state [])).
  constructor.
Defined.

(** X18.  A rendering whose length does not fit an [int], on a platform
    whose [vsnprintf] then returns -1 (as [vsnprintf] above has it):
    [debug_vstrallocf] reads the -1 as a size; the size plus one wraps to
    zero, the second buffer is a block of one byte, and the second
    [vsnprintf] is given a size of zero and writes nothing.  The call
    returns that block, which holds no string. *)
Theorem debug_vstrallocf_overflow render f line fmt argp st :
  registry_ok st → INT_MAX < strlen (render fmt argp) →
  match debug_vstrallocf render (Some f) line fmt argp st with
  | Ok p st' => p ≠ 0 ∧ heap st' !! p = Some [Undef] ∧ cstring_at (heap st') p = None
  | Fatal e =>
      (e = AllocFailed f line MIN_ALLOC ∨ e = AllocFailed f line 0) ∧ fails st ≠ []
  | Undefined => False
  end.
Proof.
  intros Hok Hint. set (out := render fmt argp) in *.
  change (match ?m st with Ok p st' => @?Q p st' | Fatal e => @?F e | Undefined => False end)
    with (returns m st Q F).
  unfold debug_vstrallocf.
  apply returns_bind.
  eapply returns_mono; [by apply debug_caller_loc_spec | | done].
  intros d st1 (Hok1 & Hext1 & _). cbn beta.
  apply returns_bind. unfold malloc_enter at 1, returns at 1, ret at 1.
  apply returns_bind.
  eapply returns_mono; [by apply debug_alloc_spec | | ].
  2:{ intros e [-> Hf]. split; [by left|]. intros E. by apply Hf, Hext1. }
  intros p st2 (Hp0 & Hfresh1 & Hp2 & Hok2 & Hext2 & Hstr2). cbn beta.
  assert (extends st st2) as Hext02 by (by etrans).
  change (Z.to_nat (max MIN_ALLOC 1)) with 64%nat in Hp2.
  apply returns_bind. rewrite decide_True by done.
  apply returns_bind. eapply vsnprintf_returns; [exact Hp2 | reflexivity | by vm_compute |].
  fold out. rewrite !(decide_False (P := strlen out ≤ INT_MAX)) by lia.
  rewrite decide_True by (by vm_compute).
  change (size_add (to_size_t (-1)) 1) with 0.
  set (st3 := set_heap _ st2).
  assert (registry_ok st3) as Hok3 by (by apply registry_ok_private).
  assert (extends st st3) as Hext3.
  { apply extends_private; [done|].
    eapply lookup_weaken_None; [exact Hfresh1 | apply Hext1]. }
  apply returns_bind. unfold debug_amfree. rewrite decide_False by done.
  eapply free_returns; [apply lookup_insert_eq | | done].
  intros _. set (st4 := set_heap _ st3).
  assert (registry_ok st4) as Hok4 by (by apply registry_ok_private_free).
  assert (extends st st4) as Hext4.
  { apply extends_private_free; [done|].
    eapply lookup_weaken_None; [exact Hfresh1 | apply Hext1]. }
  apply returns_bind.
  eapply returns_mono; [by apply debug_alloc_spec | | ].
  2:{ intros e [-> Hf]. split; [by right|]. intros E. by apply Hf, Hext4. }
  intros p' st5 (Hp0' & Hfresh4 & Hp5 & Hok5 & Hext5 & Hstr5). cbn beta.
  change (Z.to_nat (max 0 1)) with 1%nat in Hp5. cbn [replicate] in Hp5.
  apply returns_bind. unfold vsnprintf. apply returns_bind.
  rewrite decide_True by done. unfold returns at 1, ret at 1.
  unfold returns at 1, ret at 1. unfold returns at 1, ret at 1.
  apply returns_bind.
  eapply returns_mono; [by apply debug_caller_loc_spec | | done].
  intros d' st7 (Hok7 & Hext7 & _). cbn beta.
  apply returns_bind. unfold malloc_leave, returns, ret.
  assert (heap st7 !! p' = Some [Undef]) as Hp7.
  { eapply lookup_weaken; [exact Hp5 | apply Hext7]. }
  split; [done|]. split; [done|]. unfold cstring_at. by rewrite Hp7.
Qed.

Lemma debug_vstrallocf_overflow_witness :
  match debug_vstrallocf render_big (Some (bs "f.c")) 1 (bs "%s") [] (init_state []) with
  | Ok p st' => p ≠ 0 ∧ heap st' !! p = Some [Undef] ∧ cstring_at (heap st') p = None
  | Fatal e =>
      (e = AllocFailed (bs "f.c") 1 MIN_ALLOC ∨ e = AllocFailed (bs "f.c") 1 0) ∧
      fails (init_state []) ≠ []
  | Undefined => False
  end.
Proof.
  apply (debug_vstrallocf_overflow render_big (bs "f.c") 1 (bs "%s") [] (init_state [])).
  - constructor.
  - unfold render_big, strlen. rewrite length_replicate.
    change INT_MAX with 2147483647. lia.
Defined.
